(** * logrus_mail: an e-mail hook for logrus

    A shallow embedding of [mail.go] (package [logrus_mail]) and of the
    earlier revision of the same file, together with the properties of the
    hooks and of the message builder.

    Go strings and byte buffers are byte sequences: they are [string]
    (lists of [ascii]).  Pointers that may be nil are [option].  The network
    is an explicit world that every effectful function threads through. *)

From Stdlib Require Import ZArith NArith Ascii String List Lia.
From stdpp Require Import base decidable option list strings gmap sorting.

Local Open Scope Z_scope.
Local Open Scope stdpp_scope.

(** ** Bytes used by the wire format *)

Definition TAB : ascii := "009"%char.
Definition LF : ascii := "010"%char.
Definition CR : ascii := "013"%char.
Definition DQUOTE : ascii := "034"%char.
Definition BACKSLASH : ascii := "092"%char.

(** The Go literal ["\r\n"]. *)
Definition CRLF : string := String CR (String LF "").

(** ** Package [fmt] and [strconv]: the verbs the source uses *)

Module fmt.

(** One digit, lower-case above nine as [%x] prints it. *)
Definition digit (d : N) : ascii :=
  ascii_of_N (if (d <? 10)%N then 48 + d else 87 + d)%N.

Fixpoint digits (fuel : nat) (base n : N) (acc : string) : string :=
  match fuel with
  | O => acc
  | S fuel' =>
      let acc' := String (digit (n mod base)%N) acc in
      if (n / base =? 0)%N then acc' else digits fuel' base (n / base)%N acc'
  end.

(** The digits of [n] in [base], most significant first; a number has no
    more digits than bits. *)
Definition formatUint (base n : N) : string :=
  digits (S (N.to_nat (N.size n))) base n "".

Fixpoint zeros (k : nat) : string :=
  match k with O => "" | S k' => String "0"%char (zeros k') end.

Definition zeroPad (width : nat) (s : string) : string :=
  zeros (width - String.length s) +:+ s.

(** [%0<width>d]: the sign counts towards the width and precedes the
    padding. *)
Definition Sprintf_0d (width : nat) (z : Z) : string :=
  if z <? 0
  then "-" +:+ zeroPad (width - 1) (formatUint 10 (Z.to_N (- z)))
  else zeroPad width (formatUint 10 (Z.to_N z)).

(** [%d] *)
Definition Sprintf_d (z : Z) : string := Sprintf_0d 0 z.

(** [%08x] of an unsigned value. *)
Definition Sprintf_08x (n : N) : string := zeroPad 8 (formatUint 16 n).

End fmt.

Module strconv.
Definition Itoa (i : Z) : string := fmt.Sprintf_d i.
End strconv.

(** ** Package [runtime]: call-stack inspection *)

Module runtime.

Definition uintptr := N.

(** A [*runtime.Func]: what [Name], [Entry] and [FileLine] answer. *)
Record Func := {
  Name : string;
  Entry : uintptr;
  FileLine : uintptr -> string * Z
}.

(** [runtime.Callers(skip, pc)].  [stack] holds the program counters of
    the active invocations of the calling goroutine, innermost first;
    index 0 is the frame of [Callers] itself and index 1 its caller.  The
    slice [pc] is filled in place; the result is the number of entries
    written and the slice afterwards. *)
Definition Callers (stack : list uintptr) (skip : nat) (pc : list uintptr)
  : nat * list uintptr :=
  let found := take (length pc) (drop skip stack) in
  (length found, found ++ drop (length found) pc).

(** [runtime.Caller(skip)] of the earlier revision: index 0 is the caller
    of [Caller].  [ok] is false only when the walk runs off the stack; a
    program counter of no known function still gives [ok] with an empty
    file name. *)
Definition Caller (FuncForPC : uintptr -> option Func)
    (stack : list uintptr) (skip : nat) : uintptr * string * Z * bool :=
  match drop (S skip) stack with
  | [] => (0%N, "", 0, false)
  | pc :: _ =>
      match FuncForPC pc with
      | None => (pc, "", 0, true)
      | Some f => (pc, fst (FileLine f pc), snd (FileLine f pc), true)
      end
  end.

End runtime.

Abbreviation uintptr := runtime.uintptr.

(** ** Package [time] *)

Module time.

(** A [time.Time], by what [Date] and [Clock] report in its location. *)
Record Time := {
  Year : Z; Month : Z; Day : Z;
  Hour : Z; Minute : Z; Second : Z
}.

(** [appendInt(b, x, width)]: the digits of [x] padded with zeros to
    [width], after the sign. *)
Definition appendInt (x : Z) (width : nat) : string :=
  if x <? 0
  then "-" +:+ fmt.zeroPad width (fmt.formatUint 10 (Z.to_N (- x)))
  else fmt.zeroPad width (fmt.formatUint 10 (Z.to_N x)).

Fixpoint format_go (t : Time) (layout : string) (skip : nat) : string :=
  match layout with
  | EmptyString => ""
  | String c rest =>
      match skip with
      | S k => format_go t rest k
      | O =>
          if String.prefix "2006" layout
          then appendInt (Year t) 4 +:+ format_go t rest 3
          else if String.prefix "01" layout
          then appendInt (Month t) 2 +:+ format_go t rest 1
          else if String.prefix "02" layout
          then appendInt (Day t) 2 +:+ format_go t rest 1
          else if String.prefix "15" layout
          then appendInt (Hour t) 2 +:+ format_go t rest 1
          else if String.prefix "04" layout
          then appendInt (Minute t) 2 +:+ format_go t rest 1
          else if String.prefix "05" layout
          then appendInt (Second t) 2 +:+ format_go t rest 1
          else String c (format_go t rest 0)
      end
  end.

(** [t.Format(layout)] for layouts built from the reference chunks
    [2006], [01], [02], [15], [04], [05] and literal text; the other
    chunks of Go's reference time (names, zones, fractions, the unpadded
    forms) are not interpreted. *)
Definition Format (t : Time) (layout : string) : string :=
  format_go t layout 0.

End time.

(** ** Dynamic values and package [encoding/json] *)

(** An [interface{}] as the encoder sees it.  [Chan] stands for the kinds
    [encoding/json] does not support (channels, functions, complex
    numbers).  Floating-point values are left out. *)
#[warnings="-register-all"]
Inductive any :=
| Nil
| Bool (b : bool)
| Int (i : Z)
| Str (s : string)
| Slice (elems : list any)
| Map (members : list (string * any))
| Chan.

Definition error := string.

Module json.

Definition hex2 (n : N) : string := fmt.zeroPad 2 (fmt.formatUint 16 n).

(** Escaping of one byte inside a JSON string (HTML escaping is on by
    default).  Bytes from 0x80 on are copied, which is what the encoder
    does for valid UTF-8 other than U+2028 and U+2029. *)
Definition escape (c : ascii) : string :=
  if Ascii.eqb c DQUOTE then String BACKSLASH (String DQUOTE "")
  else if Ascii.eqb c BACKSLASH then String BACKSLASH (String BACKSLASH "")
  else if Ascii.eqb c LF then String BACKSLASH "n"
  else if Ascii.eqb c CR then String BACKSLASH "r"
  else if Ascii.eqb c TAB then String BACKSLASH "t"
  else if (N_of_ascii c <? 32)%N
       || Ascii.eqb c "<"%char || Ascii.eqb c ">"%char || Ascii.eqb c "&"%char
  then String BACKSLASH ("u00" +:+ hex2 (N_of_ascii c))
  else String c "".

Fixpoint escapeAll (s : string) : string :=
  match s with
  | EmptyString => ""
  | String c s' => escape c +:+ escapeAll s'
  end.

Definition quote (s : string) : string :=
  String DQUOTE (escapeAll s +:+ String DQUOTE "").

Fixpoint repeatString (s : string) (n : nat) : string :=
  match n with O => "" | S n' => s +:+ repeatString s n' end.

(** A new line at nesting [depth]. *)
Definition newline (prefix indent : string) (depth : nat) : string :=
  String LF (prefix +:+ repeatString indent depth).

Fixpoint joinLines (sep : string) (items : list string) : string :=
  match items with
  | [] => ""
  | [x] => x
  | x :: rest => x +:+ "," +:+ sep +:+ joinLines sep rest
  end.

Definition block (opening closing prefix indent : string) (depth : nat)
    (items : list string) : string :=
  match items with
  | [] => opening +:+ closing
  | _ => opening +:+ newline prefix indent (S depth)
         +:+ joinLines (newline prefix indent (S depth)) items
         +:+ newline prefix indent depth +:+ closing
  end.

Definition keyLe (p q : string * string) : Prop := (p.1 ≤ q.1)%string.

Global Instance keyLe_dec : RelDecision keyLe.
Proof. intros p q. unfold keyLe. apply _. Defined.

Definition member (kv : string * string) : string :=
  quote kv.1 +:+ ": " +:+ kv.2.

(** One member of a map: its key with its value rendered by [enc]. *)
Definition renderMember (enc : any → option string) (kv : string * any)
  : option (string * string) :=
  r ← enc kv.2; Some (kv.1, r).

(** The encoder proper.  [None] is an [UnsupportedTypeError].  The members
    of a map are written in increasing key order. *)
Fixpoint encode (prefix indent : string) (depth : nat) (v : any)
  : option string :=
  match v with
  | Nil => Some "null"
  | Bool b => Some (if b then "true" else "false")
  | Int i => Some (strconv.Itoa i)
  | Str s => Some (quote s)
  | Slice elems =>
      items ← mapM (encode prefix indent (S depth)) elems;
      Some (block "[" "]" prefix indent depth items)
  | Map members =>
      items ← mapM (renderMember (encode prefix indent (S depth))) members;
      Some (block "{" "}" prefix indent depth
              (member <$> merge_sort keyLe items))
  | Chan => None
  end.

(** [json.MarshalIndent(v, prefix, indent)]: the bytes and the error, a
    nil slice when there is an error. *)
Definition MarshalIndent (v : any) (prefix indent : string)
  : string * option error :=
  match encode prefix indent 0 v with
  | Some bytes => (bytes, None)
  | None => ("", Some "json: unsupported type")
  end.

End json.

(** ** Package [logrus]: what the hook reads of it *)

Module logrus.

(** [logrus.Level], most severe first. *)
Inductive Level :=
| PanicLevel | FatalLevel | ErrorLevel | WarnLevel | InfoLevel | DebugLevel.

Global Instance Level_eq_dec : EqDecision Level.
Proof. solve_decision. Defined.

(** [Level.String()] *)
Definition Level_String (level : Level) : string :=
  match level with
  | DebugLevel => "debug"
  | InfoLevel => "info"
  | WarnLevel => "warning"
  | ErrorLevel => "error"
  | FatalLevel => "fatal"
  | PanicLevel => "panic"
  end.

(** [logrus.Fields] is [map[string]interface{}]: the members of the
    map, in no particular order and with pairwise distinct keys.  The
    empty list is the empty map. *)
Definition Fields := list (string * any).

(** The fields of a [logrus.Entry] the hook reads. *)
Module Entry.
Record t := {
  Data : Fields;
  Time : time.Time;
  Level : Level;
  Message : string
}.
End Entry.

Definition Entry := Entry.t.

End logrus.

(** ** Package [logrus_mail] *)

Definition format : string := "20060102 15:04:05".
Definition MAX_DEPTH : nat := 100.

(** The compiled program, as far as the stack walk can observe it: the
    symbol table behind [runtime.FuncForPC] and the program counters of the
    frames the package itself puts on the stack. *)
Record Program := {
  FuncForPC : uintptr -> option runtime.Func;
  (** the frame of [runtime.Callers] (or [runtime.Caller]) itself *)
  pc_Callers : uintptr;
  (** [createMessage], at its call into the runtime *)
  pc_createMessage : uintptr;
  (** [MailHook.Fire], at its call of [createMessage] *)
  pc_MailHook_Fire : uintptr;
  (** [MailAuthHook.Fire], at its call of [createMessage] *)
  pc_MailAuthHook_Fire : uintptr
}.

(** What one iteration of the loop appends for a resolved frame. *)
Definition frameEntry (i : nat) (pc : uintptr) (function : runtime.Func)
  : string :=
  let name := runtime.Name function in
  let entry := runtime.Entry function in
  let '(file, line) := runtime.FileLine function pc in
  ("Frame " +:+ fmt.Sprintf_0d 2 (Z.of_nat i) +:+ ":" +:+ CRLF)
  +:+ (String TAB "File: " +:+ file +:+ CRLF)
  +:+ (String TAB "Function: " +:+ name +:+ CRLF)
  +:+ (String TAB "Line: " +:+ fmt.Sprintf_d line +:+ CRLF)
  +:+ (String TAB "PC/Entry: 0x" +:+ fmt.Sprintf_08x pc +:+ "/0x"
       +:+ fmt.Sprintf_08x entry +:+ CRLF).

(** The loop [for i := 0; i < depth; i++] over [callers[i]]: [callers] is
    what is left of [callers[:depth]] from index [i] on. *)
Fixpoint traceLoop (P : Program) (i : nat) (callers : list uintptr)
    (trace : string) : string :=
  match callers with
  | [] => trace
  | pc :: rest =>
      match FuncForPC P pc with
      | None => trace                                       (* break *)
      | Some function =>
          traceLoop P (S i) rest (trace +:+ frameEntry i pc function)
      end
  end.

(** The stack-trace section.  [stack] is the goroutine's stack when
    [createMessage] is entered: the frame of its caller first. *)
Definition stackTrace (P : Program) (stack : list uintptr) : string :=
  let callers := replicate (MAX_DEPTH + 1) 0%N in
  let '(depth, callers) :=
    runtime.Callers (pc_Callers P :: pc_createMessage P :: stack) 1 callers in
  traceLoop P 0 (take depth callers) "".

Definition createMessage (P : Program) (stack : list uintptr)
    (entry : logrus.Entry) (appname from to : string) : string :=
  let trace := stackTrace P stack in
  let subject :=
    appname +:+ " - " +:+ logrus.Level_String (logrus.Entry.Level entry) in
  let '(fields, _) := json.MarshalIndent (Map (logrus.Entry.Data entry)) "" (String TAB "") in
  let body := time.Format (logrus.Entry.Time entry) format +:+ " - "
              +:+ logrus.Entry.Message entry +:+ CRLF +:+ CRLF in
  let body := body +:+ trace +:+ CRLF +:+ CRLF +:+ "Data:" +:+ CRLF +:+ CRLF
              +:+ fields in
  let contents := "" in
  let contents :=
    if decide (from ≠ "") then contents +:+ "From: " +:+ from +:+ CRLF
    else contents in
  let contents :=
    if decide (to ≠ "") then contents +:+ "To: " +:+ to +:+ CRLF
    else contents in
  let contents :=
    contents +:+ "Subject: " +:+ subject +:+ CRLF +:+ CRLF
    +:+ body +:+ CRLF +:+ CRLF in
  contents.

(** *** The earlier revision of [createMessage]

    The repository also holds the previous state of the file; its builder
    walks the stack with [runtime.Caller] and writes one line for each
    frame. *)

Module Rev0.

(** The loop [for i := 0; i < 100; i++]; [fuel] is [100 - i]. *)
Fixpoint traceLoop (P : Program) (stack : list uintptr) (fuel i : nat)
    (trace : string) : string :=
  match fuel with
  | O => trace
  | S fuel' =>
      let '(pc, file, line, ok) :=
        runtime.Caller (FuncForPC P)
          (pc_Callers P :: pc_createMessage P :: stack) i in
      let trace :=
        trace +:+ fmt.Sprintf_0d 2 (Z.of_nat i) +:+ ": 0x"
        +:+ fmt.Sprintf_08x pc +:+ " " +:+ file +:+ ":"
        +:+ fmt.Sprintf_d line +:+ CRLF in
      if negb ok then trace                                 (* break *)
      else traceLoop P stack fuel' (S i) trace
  end.

Definition stackTrace (P : Program) (stack : list uintptr) : string :=
  traceLoop P stack 100 0 "".

Definition createMessage (P : Program) (stack : list uintptr)
    (entry : logrus.Entry) (appname from to : string) : string :=
  let trace := stackTrace P stack in
  let body := time.Format (logrus.Entry.Time entry) format +:+ " - "
              +:+ logrus.Entry.Message entry +:+ CRLF +:+ "Trace:" +:+ CRLF
              +:+ trace in
  let subject :=
    appname +:+ " - " +:+ logrus.Level_String (logrus.Entry.Level entry) in
  let '(fields, _) :=
    json.MarshalIndent (Map (logrus.Entry.Data entry)) "" (String TAB "") in
  "From: " +:+ from +:+ CRLF +:+ "To: " +:+ to +:+ CRLF
  +:+ "Subject: " +:+ subject +:+ CRLF +:+ CRLF
  +:+ body +:+ CRLF +:+ CRLF +:+ fields.

End Rev0.

(** ** Package [net/mail] *)

Module mail.

Module Address.
(** A parsed address: display name and [local@domain]. *)
Record t := { Name : string; Address : string }.
End Address.

Definition Address := Address.t.

(** [mail.ParseAddress]: the RFC 5322 parser is a collaborator; the
    hooks are defined for any parser. *)
Definition Parser := string -> Address + error.

End mail.

(** ** The network: [net] and [net/smtp] *)

(** What a client does on an SMTP session, in order. *)
Inductive command :=
| MAIL (from : string)      (* c.Mail, with the greeting exchange before it *)
| RCPT (to : string)        (* c.Rcpt *)
| DATA                      (* c.Data *)
| WRITE (payload : string)  (* writing to the data channel *)
| DOT.                      (* closing the data channel *)

(** An open connection: the peer and what was sent on it so far. *)
Record Conn := { peer : string; session : list command }.

Module smtp.
(** [smtp.PlainAuth(identity, username, password, host)] *)
Record Auth := {
  identity : string; username : string; password : string; host : string
}.
Definition PlainAuth (identity username password host : string) : Auth :=
  {| identity := identity; username := username;
     password := password; host := host |}.

(** A [*smtp.Client], by the descriptor of its connection. *)
Definition Client := nat.
End smtp.

(** The other side of the network.  Every answer is [None] for success or
    the error the Go call returns. *)
Record Remote := {
  (** connecting to [host:port] *)
  connect : string -> option error;
  (** the server greeting read when an SMTP client is set up *)
  greeting : string -> option error;
  (** the reply to a command, given the peer and the session so far *)
  respond : string -> list command -> command -> option error;
  (** the whole of [smtp.SendMail(addr, auth, from, to, msg)] *)
  sendMail : string -> smtp.Auth -> string -> list string -> string
             -> option error
}.

Module MailHook.
(** MailHook to sends logs by email without authentication. *)
Record t := { AppName : string; c : smtp.Client }.
End MailHook.

Module MailAuthHook.
(** MailAuthHook to sends logs by email with authentication. *)
Record t := {
  AppName : string;
  Host : string;
  Port : Z;
  From : option mail.Address;
  To : option mail.Address;
  Username : string;
  Password : string
}.
End MailAuthHook.

(** A started goroutine: the closure of [MailAuthHook.Fire], which
    captures the hook and the message already built. *)
Record Goroutine := { g_hook : MailAuthHook.t; g_message : string }.

Record World := {
  (** open connections, by descriptor *)
  conns : gmap nat Conn;
  (** goroutines started and not yet run *)
  goroutines : list Goroutine
}.

Definition withConns (w : World) (m : gmap nat Conn) : World :=
  {| conns := m; goroutines := goroutines w |}.

Definition spawn (g : Goroutine) (w : World) : World :=
  {| conns := conns w; goroutines := goroutines w ++ [g] |}.

Module net.

(** Opening a connection to [addr]: a fresh descriptor. *)
Definition open (addr : string) (w : World) : nat * World :=
  let fd := fresh (dom (conns w)) in
  (fd, withConns w (<[fd := {| peer := addr; session := [] |}]> (conns w))).

(** [net.DialTimeout("tcp", addr, timeout)]; the time bound is part of
    what [connect] answers. *)
Definition DialTimeout (R : Remote) (addr : string) (w : World)
  : (nat + error) * World :=
  match connect R addr with
  | Some err => (inr err, w)
  | None => let '(fd, w) := open addr w in (inl fd, w)
  end.

(** [conn.Close()] *)
Definition Close (fd : nat) (w : World) : World :=
  withConns w (delete fd (conns w)).

End net.

(** [smtp.Dial(addr)]: connect, then read the greeting; the connection is
    closed again when the greeting fails. *)
Definition smtp_Dial (R : Remote) (addr : string) (w : World)
  : (smtp.Client + error) * World :=
  match net.DialTimeout R addr w with
  | (inr err, w) => (inr err, w)
  | (inl fd, w) =>
      match greeting R addr with
      | Some err => (inr err, net.Close fd w)
      | None => (inl fd, w)
      end
  end.

(** The methods of [*smtp.Client] and of the writer [c.Data()] returns. *)
Module Client.

(** One exchange on the session of client [c]. *)
Definition exchange (R : Remote) (c : smtp.Client) (cmd : command)
    (w : World) : option error * World :=
  match conns w !! c with
  | None => (Some "use of closed network connection", w)
  | Some conn =>
      (respond R (peer conn) (session conn) cmd,
       withConns w (<[c := {| peer := peer conn;
                              session := session conn ++ [cmd] |}]>
                      (conns w)))
  end.

Definition Mail (R : Remote) (c : smtp.Client) (from : string) :=
  exchange R c (MAIL from).
Definition Rcpt (R : Remote) (c : smtp.Client) (to : string) :=
  exchange R c (RCPT to).
(** [c.Data()]: the writer it returns is the client itself. *)
Definition Data (R : Remote) (c : smtp.Client) := exchange R c DATA.
(** [message.WriteTo(wc)] *)
Definition WriteTo (R : Remote) (wc : smtp.Client) (message : string) :=
  exchange R wc (WRITE message).
(** [wc.Close()] *)
Definition Close (R : Remote) (wc : smtp.Client) := exchange R wc DOT.

End Client.

(** NewMailHook creates a hook to be added to an instance of logger. *)
Definition NewMailHook (R : Remote) (ParseAddress : mail.Parser)
    (appname host : string) (port : Z) (from to : string) (w : World)
  : (MailHook.t + error) * World :=
  (* Connect to the remote SMTP server. *)
  match smtp_Dial R (host +:+ ":" +:+ strconv.Itoa port) w with
  | (inr err, w) => (inr err, w)
  | (inl c, w) =>
      (* Validate sender and recipient *)
      match ParseAddress from with
      | inr err => (inr err, w)
      | inl sender =>
          match ParseAddress to with
          | inr err => (inr err, w)
          | inl recipient =>
              (* Set the sender and recipient. *)
              match Client.Mail R c (mail.Address.Address sender) w with
              | (Some err, w) => (inr err, w)
              | (None, w) =>
                  match Client.Rcpt R c (mail.Address.Address recipient) w with
                  | (Some err, w) => (inr err, w)
                  | (None, w) =>
                      (inl {| MailHook.AppName := appname; MailHook.c := c |},
                       w)
                  end
              end
          end
      end
  end.

(** NewMailAuthHook creates a hook to be added to an instance of logger. *)
Definition NewMailAuthHook (R : Remote) (ParseAddress : mail.Parser)
    (appname host : string) (port : Z) (from to username password : string)
    (w : World) : (MailAuthHook.t + error) * World :=
  (* Check if server listens on that port. *)
  match net.DialTimeout R (host +:+ ":" +:+ strconv.Itoa port) w with
  | (inr err, w) => (inr err, w)
  | (inl conn, w) =>
      let deferred := net.Close conn in          (* defer conn.Close() *)
      (* Validate sender and recipient *)
      match ParseAddress from with
      | inr err => (inr err, deferred w)
      | inl sender =>
          match ParseAddress to with
          | inr err => (inr err, deferred w)
          | inl receiver =>
              (inl {| MailAuthHook.AppName := appname;
                      MailAuthHook.Host := host;
                      MailAuthHook.Port := port;
                      MailAuthHook.From := Some sender;
                      MailAuthHook.To := Some receiver;
                      MailAuthHook.Username := username;
                      MailAuthHook.Password := password |},
               deferred w)
          end
      end
  end.

(** How a call ends: it returns, or the goroutine panics. *)
Inductive outcome (A : Type) :=
| Returns (a : A)
| Panics (reason : string).
Arguments Returns {A} a.
Arguments Panics {A} reason.

(** Fire is called when a log event is fired.  [stack] is the stack of the
    goroutine that calls [Fire], the frame of that caller first. *)
Definition MailHook_Fire (P : Program) (R : Remote) (hook : MailHook.t)
    (stack : list uintptr) (entry : logrus.Entry) (w : World)
  : option error * World :=
  match Client.Data R (MailHook.c hook) w with
  | (Some err, w) => (Some err, w)
  | (None, w) =>
      let wc := MailHook.c hook in
      let deferred := fun w => snd (Client.Close R wc w) in (* defer wc.Close() *)
      let message :=
        createMessage P (pc_MailHook_Fire P :: stack) entry
          (MailHook.AppName hook) "" "" in
      match Client.WriteTo R wc message w with
      | (Some err, w) => (Some err, deferred w)
      | (None, w) => (None, deferred w)
      end
  end.

(** The body of the goroutine [MailAuthHook.Fire] starts.  The error of
    [smtp.SendMail] is dropped by the source; it is returned here only so
    that it can be talked about. *)
Definition deliver (R : Remote) (g : Goroutine) : outcome (option error) :=
  let hook := g_hook g in
  let auth := smtp.PlainAuth "" (MailAuthHook.Username hook)
                (MailAuthHook.Password hook) (MailAuthHook.Host hook) in
  match MailAuthHook.From hook, MailAuthHook.To hook with
  | Some from, Some to =>
      Returns
        (sendMail R
           (MailAuthHook.Host hook +:+ ":"
            +:+ strconv.Itoa (MailAuthHook.Port hook))
           auth (mail.Address.Address from) [mail.Address.Address to]
           (g_message g))
  | _, _ => Panics "invalid memory address or nil pointer dereference"
  end.

(** Fire is called when a log event is fired. *)
Definition MailAuthHook_Fire (P : Program) (hook : MailAuthHook.t)
    (stack : list uintptr) (entry : logrus.Entry) (w : World)
  : outcome (option error) * World :=
  match MailAuthHook.From hook, MailAuthHook.To hook with
  | Some from, Some to =>
      let message :=
        createMessage P (pc_MailAuthHook_Fire P :: stack) entry
          (MailAuthHook.AppName hook)
          (mail.Address.Address from) (mail.Address.Address to) in
      (* NOTE: It is critical that the message, which includes the stack
               trace details, is created before the go routine is called *)
      let w := spawn {| g_hook := hook; g_message := message |} w in
      (Returns None, w)
  | _, _ => (Panics "invalid memory address or nil pointer dereference", w)
  end.

(** Levels returns the available logging levels. *)
Definition MailAuthHook_Levels (hook : MailAuthHook.t) : list logrus.Level :=
  [logrus.PanicLevel; logrus.FatalLevel; logrus.ErrorLevel].

(** Levels returns the available logging levels. *)
Definition MailHook_Levels (hook : MailHook.t) : list logrus.Level :=
  [logrus.PanicLevel; logrus.FatalLevel; logrus.ErrorLevel].

(** ** Reading a rendered message

    The payload is CRLF-terminated text: header lines, a blank line, the
    body.  These functions read it back the way a mail transport does. *)

Definition consHead (c : ascii) (ls : list string) : list string :=
  match ls with
  | [] => [String c ""]
  | l :: rest => String c l :: rest
  end.

(** The lines of a text; a line ends at each CRLF. *)
Fixpoint splitCRLF (s : string) : list string :=
  match s with
  | EmptyString => [""]
  | String c s' =>
      match s' with
      | String c' s'' =>
          if Ascii.eqb c CR && Ascii.eqb c' LF then "" :: splitCRLF s''
          else consHead c (splitCRLF s')
      | EmptyString => [String c ""]
      end
  end.

Definition startsWithLF (s : string) : bool :=
  match s with String c _ => Ascii.eqb c LF | EmptyString => false end.

(** Whether the two-byte sequence CR LF occurs in [s]. *)
Fixpoint hasCRLF (s : string) : bool :=
  match s with
  | EmptyString => false
  | String c s' => (Ascii.eqb c CR && startsWithLF s') || hasCRLF s'
  end.

Fixpoint untilBlank (ls : list string) : list string :=
  match ls with
  | [] => []
  | l :: rest => if decide (l = "") then [] else l :: untilBlank rest
  end.

Fixpoint afterBlank (ls : list string) : list string :=
  match ls with
  | [] => []
  | l :: rest => if decide (l = "") then rest else afterBlank rest
  end.

(** The header block: the lines before the first blank line. *)
Definition headerLines (message : string) : list string :=
  untilBlank (splitCRLF message).

(** The body: the lines after the first blank line. *)
Definition bodyLines (message : string) : list string :=
  afterBlank (splitCRLF message).

Fixpoint stripPrefix (p s : string) : option string :=
  match p with
  | EmptyString => Some s
  | String a p' =>
      match s with
      | String b s' => if Ascii.eqb a b then stripPrefix p' s' else None
      | EmptyString => None
      end
  end.

(** The values of the header fields called [name], in order. *)
Definition headerValues (name message : string) : list string :=
  omap (stripPrefix (name +:+ ": ")) (headerLines message).

(** The frames a stack-trace section shows: its [Frame NN:] lines and the
    function named under each. *)
Definition frameLines (trace : string) : list string :=
  omap (stripPrefix "Frame ") (splitCRLF trace).
Definition functionLines (trace : string) : list string :=
  omap (stripPrefix (String TAB "Function: ")) (splitCRLF trace).

(** The frames the walk of [createMessage] resolves: the longest prefix of
    [pcs] of known functions. *)
Fixpoint resolved (P : Program) (pcs : list uintptr)
  : list (uintptr * runtime.Func) :=
  match pcs with
  | [] => []
  | pc :: rest =>
      match FuncForPC P pc with
      | None => []
      | Some function => (pc, function) :: resolved P rest
      end
  end.

Fixpoint renderFrames (i : nat) (frames : list (uintptr * runtime.Func))
  : string :=
  match frames with
  | [] => ""
  | (pc, function) :: rest =>
      frameEntry i pc function +:+ renderFrames (S i) rest
  end.

(** One line of the earlier revision's trace. *)
Definition rev0Line (P : Program) (stack : list uintptr) (i : nat) : string :=
  let '(pc, file, line, _) :=
    runtime.Caller (FuncForPC P)
      (pc_Callers P :: pc_createMessage P :: stack) i in
  fmt.Sprintf_0d 2 (Z.of_nat i) +:+ ": 0x" +:+ fmt.Sprintf_08x pc +:+ " "
  +:+ file +:+ ":" +:+ fmt.Sprintf_d line +:+ CRLF.

Fixpoint concatStrings (ls : list string) : string :=
  match ls with
  | [] => ""
  | l :: rest => l +:+ concatStrings rest
  end.

(** A header line as [createMessage] writes it, or nothing for an empty
    value. *)
Definition optionalHeader (name value : string) : string :=
  if decide (value = "") then "" else name +:+ ": " +:+ value +:+ CRLF.


(** The payloads written on the session of client [c], oldest first. *)
Definition written (w : World) (c : smtp.Client) : list string :=
  match conns w !! c with
  | None => []
  | Some conn =>
      omap (λ cmd, match cmd with WRITE payload => Some payload | _ => None end)
        (session conn)
  end.

(** An error [MailHook.Fire] can get from the transport. *)
Definition transportError (R : Remote) (err : error) : Prop :=
  err = "use of closed network connection"
  ∨ ∃ addr log cmd, respond R addr log cmd = Some err.

(** ** Sample inputs *)

Module Sample.

Definition function (name file : string) (entry : uintptr) : runtime.Func :=
  {| runtime.Name := name;
     runtime.Entry := entry;
     runtime.FileLine := λ pc, (file, Z.of_N (pc - entry)) |}.

(** A small binary: one page of code for each function. *)
Definition program : Program :=
  {| FuncForPC := λ pc,
       if (pc <? 0x1000)%N then None
       else if (pc <? 0x2000)%N
       then Some (function "runtime.Callers" "/go/src/runtime/extern.go" 0x1000)
       else if (pc <? 0x3000)%N
       then Some (function "logrus_mail.createMessage" "/src/logrus_mail/mail.go" 0x2000)
       else if (pc <? 0x4000)%N
       then Some (function "logrus_mail.MailHook.Fire" "/src/logrus_mail/mail.go" 0x3000)
       else if (pc <? 0x5000)%N
       then Some (function "logrus_mail.MailAuthHook.Fire" "/src/logrus_mail/mail.go" 0x4000)
       else if (pc <? 0x6000)%N
       then Some (function "logrus.Entry.log" "/src/logrus/entry.go" 0x5000)
       else if (pc <? 0x7000)%N
       then Some (function "main.work" "/src/app/main.go" 0x6000)
       else None;
     pc_Callers := 0x1010;
     pc_createMessage := 0x2040;
     pc_MailHook_Fire := 0x3060;
     pc_MailAuthHook_Fire := 0x4028 |}%N.

(** The application logs from [main.work]. *)
Definition stack : list uintptr := [0x5100; 0x6200]%N.

(** The same, from a recursion 150 calls deep. *)
Definition deepStack : list uintptr := 0x5100%N :: replicate 150 0x6200%N.

(** A stack with a frame of no known function in the middle. *)
Definition brokenStack : list uintptr := [0x5100; 0x9000; 0x6200]%N.

(** The event of the disk-full scenario. *)
Definition diskFull : logrus.Entry :=
  {| logrus.Entry.Data := [("volume", Str "/data")];
     logrus.Entry.Time :=
       {| time.Year := 2024; time.Month := 1; time.Day := 1;
          time.Hour := 0; time.Minute := 0; time.Second := 0 |};
     logrus.Entry.Level := logrus.ErrorLevel;
     logrus.Entry.Message := "disk full" |}.

(** The text [{\n\t"volume": "/data"\n}]. *)
Definition diskFullJSON : string :=
  "{" +:+ String LF (String TAB (String DQUOTE "volume"))
  +:+ String DQUOTE ": " +:+ String DQUOTE "/data" +:+ String DQUOTE ""
  +:+ String LF "}".

(** Two listings of one map of fields. *)
Definition twoFields : logrus.Entry :=
  {| logrus.Entry.Data := [("volume", Str "/data"); ("free", Int 0)];
     logrus.Entry.Time := logrus.Entry.Time diskFull;
     logrus.Entry.Level := logrus.ErrorLevel;
     logrus.Entry.Message := "disk full" |}.
Definition twoFieldsSwapped : logrus.Entry :=
  {| logrus.Entry.Data := [("free", Int 0); ("volume", Str "/data")];
     logrus.Entry.Time := logrus.Entry.Time diskFull;
     logrus.Entry.Level := logrus.ErrorLevel;
     logrus.Entry.Message := "disk full" |}.

(** An event with a field the encoder cannot render. *)
Definition withChannel : logrus.Entry :=
  {| logrus.Entry.Data := [("done", Chan); ("volume", Str "/data")];
     logrus.Entry.Time := logrus.Entry.Time diskFull;
     logrus.Entry.Level := logrus.PanicLevel;
     logrus.Entry.Message := "worker stuck" |}.

Fixpoint splitAt (s : string) : option (string * string) :=
  match s with
  | EmptyString => None
  | String c s' =>
      if Ascii.eqb c "@"%char then Some ("", s')
      else match splitAt s' with
           | Some (l, d) => Some (String c l, d)
           | None => None
           end
  end.

(** A stand-in for [mail.ParseAddress] that accepts bare
    [local@domain] only. *)
Definition ParseAddress : mail.Parser := λ s,
  match splitAt s with
  | Some (l, d) =>
      if decide (l ≠ "" ∧ d ≠ "" ∧ splitAt d = None)
      then inl {| mail.Address.Name := ""; mail.Address.Address := s |}
      else inr "mail: invalid address"
  | None => inr "mail: missing @ in address"
  end.

(** A relay on [smtp.example.com:25] that accepts everything. *)
Definition remote : Remote :=
  {| connect := λ addr,
       if decide (addr = "smtp.example.com:25") then None
       else Some "dial tcp: connection refused";
     greeting := λ _, None;
     respond := λ _ _ _, None;
     sendMail := λ _ _ _ _ _, None |}.

(** The same relay when it refuses every sender. *)
Definition rejecting : Remote :=
  {| connect := connect remote;
     greeting := greeting remote;
     respond := λ _ _ cmd,
       match cmd with
       | MAIL _ => Some "550 sender rejected"
       | _ => None
       end;
     sendMail := λ _ _ _ _ _, Some "550 sender rejected" |}.

(** The same relay when it accepts the data and refuses the message at
    the final dot. *)
Definition rejectingAtEnd : Remote :=
  {| connect := connect remote;
     greeting := greeting remote;
     respond := λ _ _ cmd,
       match cmd with
       | DOT => Some "554 message refused"
       | _ => None
       end;
     sendMail := λ _ _ _ _ _, Some "554 message refused" |}.

Definition world : World := {| conns := ∅; goroutines := [] |}.

(** A world with one session open to the relay, and a hook on it. *)
Definition connected : World :=
  {| conns := {[ 0%nat := {| peer := "smtp.example.com:25";
                              session := [MAIL "ops@example.com";
                                          RCPT "oncall@example.com"] |} ]};
     goroutines := [] |}.
Definition hook : MailHook.t :=
  {| MailHook.AppName := "svc"; MailHook.c := 0%nat |}.

Definition authHook : MailAuthHook.t :=
  {| MailAuthHook.AppName := "svc";
     MailAuthHook.Host := "smtp.example.com";
     MailAuthHook.Port := 25;
     MailAuthHook.From :=
       Some {| mail.Address.Name := "";
               mail.Address.Address := "ops@example.com" |};
     MailAuthHook.To :=
       Some {| mail.Address.Name := "";
               mail.Address.Address := "oncall@example.com" |};
     MailAuthHook.Username := "ops";
     MailAuthHook.Password := "secret" |}.

End Sample.

(** ** The earlier revision of [MailAuthHook.Fire]

    It sends the mail itself and returns what [smtp.SendMail] returns. *)
Definition Rev0_MailAuthHook_Fire (P : Program) (R : Remote)
    (hook : MailAuthHook.t) (stack : list uintptr) (entry : logrus.Entry)
    (w : World) : outcome (option error) * World :=
  let auth := smtp.PlainAuth "" (MailAuthHook.Username hook)
                (MailAuthHook.Password hook) (MailAuthHook.Host hook) in
  match MailAuthHook.From hook, MailAuthHook.To hook with
  | Some from, Some to =>
      let message :=
        Rev0.createMessage P (pc_MailAuthHook_Fire P :: stack) entry
          (MailAuthHook.AppName hook)
          (mail.Address.Address from) (mail.Address.Address to) in
      (* Connect to the server, authenticate, set the sender and recipient,
         and send the email all in one step. *)
      match sendMail R
              (MailAuthHook.Host hook +:+ ":"
               +:+ strconv.Itoa (MailAuthHook.Port hook))
              auth (mail.Address.Address from) [mail.Address.Address to]
              message with
      | Some err => (Returns (Some err), w)
      | None => (Returns None, w)
      end
  | _, _ => (Panics "invalid memory address or nil pointer dereference", w)
  end.

(** ** More ways to read a text *)

(** Whether a carriage return occurs in [s]. *)
Fixpoint hasCR (s : string) : bool :=
  match s with
  | EmptyString => false
  | String c s' => Ascii.eqb c CR || hasCR s'
  end.

(** A symbol table whose file and function names hold no line break. *)
Definition cleanSymbols (P : Program) : Prop :=
  ∀ pc function, FuncForPC P pc = Some function →
    hasCRLF (runtime.Name function) = false
    ∧ hasCRLF (runtime.FileLine function pc).1 = false.

(** What follows [Frame ] on the first line of the entry of frame [i]. *)
Definition frameLabel (i : nat) : string :=
  fmt.Sprintf_0d 2 (Z.of_nat i) +:+ ":".

(** A server that accepts whatever is sent to [addr]. *)
Definition accepting (R : Remote) (addr : string) : Prop :=
  ∀ log cmd, respond R addr log cmd = None.

(** * Properties *)

(** ** Strings *)

Section strings.
Implicit Types s t u : string.

Lemma string_app_cons c s t : String c s +:+ t = String c (s +:+ t).
Proof. reflexivity. Qed.

Lemma string_app_nil_l s : "" +:+ s = s.
Proof. reflexivity. Qed.

Lemma string_app_nil_r s : s +:+ "" = s.
Proof. induction s as [|c s IH]; [done|]. by rewrite string_app_cons, IH. Qed.

Lemma string_app_assoc s t u : (s +:+ t) +:+ u = s +:+ t +:+ u.
Proof. induction s as [|c s IH]; [done|]. by rewrite !string_app_cons, IH. Qed.

Lemma stripPrefix_app p s : stripPrefix p (p +:+ s) = Some s.
Proof.
  induction p as [|c p IH]; [done|].
  rewrite string_app_cons. simpl. by rewrite Ascii.eqb_refl.
Qed.

Lemma startsWithLF_app s t :
  s ≠ "" → startsWithLF (s +:+ t) = startsWithLF s.
Proof. destruct s; [done|]. by rewrite string_app_cons. Qed.

(** A text free of CRLF stays so when a suffix that does not begin with a
    line feed is appended. *)
Lemma hasCRLF_app s t :
  hasCRLF s = false → hasCRLF t = false → startsWithLF t = false →
  hasCRLF (s +:+ t) = false.
Proof.
  intros Hs Ht Hlf. induction s as [|c s IH]; [done|].
  rewrite string_app_cons. simpl in *.
  apply orb_false_iff in Hs as [Hc Hs].
  rewrite IH by done. rewrite orb_false_r.
  destruct s as [|c' s]; [|done].
  rewrite string_app_nil_l, Hlf. apply andb_false_r.
Qed.

(** The first line of a text is what precedes its first CRLF. *)
Lemma splitCRLF_line s rest :
  hasCRLF s = false →
  splitCRLF (s +:+ CRLF +:+ rest) = s :: splitCRLF rest.
Proof.
  induction s as [|c s IH]; intros Hs.
  - reflexivity.
  - simpl in Hs. apply orb_false_iff in Hs as [Hc Hs].
    rewrite string_app_cons.
    change (splitCRLF (String c (s +:+ CRLF +:+ rest)))
      with (match s +:+ CRLF +:+ rest with
            | String c' s'' =>
                if Ascii.eqb c CR && Ascii.eqb c' LF
                then "" :: splitCRLF s''
                else consHead c (splitCRLF (s +:+ CRLF +:+ rest))
            | EmptyString => [String c ""]
            end).
    rewrite (IH Hs).
    destruct s as [|c' s].
    + rewrite string_app_nil_l. unfold CRLF at 1. rewrite string_app_cons.
      change (Ascii.eqb CR LF) with false. by rewrite andb_false_r.
    + rewrite string_app_cons. simpl in Hc. by rewrite Hc.
Qed.

End strings.

(** ** Formatting numbers *)

Lemma digits_S fuel base n acc :
  fmt.digits (S fuel) base n acc =
    if (n / base =? 0)%N then String (fmt.digit (n mod base)%N) acc
    else fmt.digits fuel base (n / base)%N
           (String (fmt.digit (n mod base)%N) acc).
Proof. reflexivity. Qed.

(** The digit loop is done before its fuel is: any two amounts of fuel
    that cover the bits of [n] give the same digits. *)
Lemma digits_enough base n acc fuel fuel' :
  (2 ≤ base)%N → (n < 2 ^ N.of_nat fuel)%N → (n < 2 ^ N.of_nat fuel')%N →
  fmt.digits (S fuel) base n acc = fmt.digits (S fuel') base n acc.
Proof.
  intros Hbase. revert fuel' n acc.
  induction fuel as [|fuel IH]; intros fuel' n acc Hn Hn'.
  - assert (n = 0%N) as -> by (simpl in Hn; lia).
    rewrite !digits_S, N.Div0.div_0_l. reflexivity.
  - rewrite (digits_S (S fuel)), (digits_S fuel').
    destruct (n / base =? 0)%N eqn:Hq; [done|].
    apply N.eqb_neq in Hq.
    assert (n / base < 2 ^ N.of_nat fuel)%N as Hfuel.
    { rewrite Nat2N.inj_succ, N.pow_succ_r' in Hn.
      apply N.Div0.div_lt_upper_bound. nia. }
    destruct fuel' as [|fuel'].
    { assert (n = 0%N) as -> by (simpl in Hn'; lia).
      by rewrite N.Div0.div_0_l in Hq. }
    assert (n / base < 2 ^ N.of_nat fuel')%N as Hfuel'.
    { rewrite Nat2N.inj_succ, N.pow_succ_r' in Hn'.
      apply N.Div0.div_lt_upper_bound. nia. }
    apply IH; done.
Qed.

Lemma formatUint_enough base n fuel :
  (2 ≤ base)%N → (n < 2 ^ N.of_nat fuel)%N →
  fmt.digits (S fuel) base n "" = fmt.formatUint base n.
Proof.
  intros Hbase Hn. unfold fmt.formatUint.
  apply digits_enough; [done..|]. rewrite N2Nat.id. apply N.size_gt.
Qed.

(** ** The library models at work *)

Example Sprintf_verbs :
  fmt.Sprintf_0d 2 7 = "07" ∧ fmt.Sprintf_0d 2 100 = "100"
  ∧ fmt.Sprintf_0d 3 (-5) = "-05" ∧ fmt.Sprintf_d (-5) = "-5"
  ∧ fmt.Sprintf_08x 0x2040 = "00002040"
  ∧ fmt.Sprintf_08x 0xc000123456 = "c000123456"
  ∧ strconv.Itoa 25 = "25".
Proof. repeat split; reflexivity. Qed.

Example Format_reference_layout :
  time.Format
    {| time.Year := 2015; time.Month := 11; time.Day := 3;
       time.Hour := 7; time.Minute := 5; time.Second := 59 |} format
  = "20151103 07:05:59".
Proof. reflexivity. Qed.

Example Callers_fills_the_slice :
  runtime.Callers [1; 2; 3; 4]%N 1 [0; 0]%N = (2%nat, [2; 3]%N)
  ∧ runtime.Callers [1; 2; 3]%N 1 [0; 0; 0; 0]%N = (2%nat, [2; 3; 0; 0]%N).
Proof. split; reflexivity. Qed.

Example MarshalIndent_disk_full :
  json.MarshalIndent (Map (logrus.Entry.Data Sample.diskFull)) ""
    (String TAB "") = (Sample.diskFullJSON, None).
Proof. reflexivity. Qed.

Example MarshalIndent_sorts_and_escapes :
  (json.MarshalIndent
     (Map [("b", Slice [Int 1; Nil]); ("a", Str "x<y"); ("c", Map [])]) ""
     (String TAB "")).1
  = "{" +:+ String LF (String TAB (json.quote "a")) +:+ ": "
    +:+ String DQUOTE ("x" +:+ String BACKSLASH "u003cy") +:+ String DQUOTE ","
    +:+ String LF (String TAB (json.quote "b")) +:+ ": ["
    +:+ String LF (String TAB (String TAB "1,"))
    +:+ String LF (String TAB (String TAB "null"))
    +:+ String LF (String TAB "],")
    +:+ String LF (String TAB (json.quote "c")) +:+ ": {}"
    +:+ String LF "}".
Proof. reflexivity. Qed.

Example MarshalIndent_unsupported :
  json.MarshalIndent (Map (logrus.Entry.Data Sample.withChannel)) ""
    (String TAB "") = ("", Some "json: unsupported type").
Proof. reflexivity. Qed.

(** ** The shape of a rendered message *)

(** [createMessage] as one concatenation: the optional address headers, the
    subject, a blank line, the first body line, the trace, the data label
    and the fields. *)
Lemma createMessage_eq P stack entry appname from to :
  createMessage P stack entry appname from to =
    optionalHeader "From" from +:+ optionalHeader "To" to
    +:+ ("Subject: " +:+ appname +:+ " - "
         +:+ logrus.Level_String (logrus.Entry.Level entry))
    +:+ CRLF +:+ CRLF
    +:+ (time.Format (logrus.Entry.Time entry) format +:+ " - "
         +:+ logrus.Entry.Message entry)
    +:+ CRLF +:+ CRLF +:+ stackTrace P stack +:+ CRLF +:+ CRLF +:+ "Data:"
    +:+ CRLF +:+ CRLF
    +:+ (json.MarshalIndent (Map (logrus.Entry.Data entry)) "" (String TAB "")).1
    +:+ CRLF +:+ CRLF.
Proof.
  unfold createMessage, optionalHeader.
  destruct (json.MarshalIndent _ _ _) as [fields err]. simpl fst.
  repeat case_decide; subst; try done;
    rewrite ?string_app_assoc, ?string_app_nil_l; reflexivity.
Qed.

(** ** Applicable severities *)

(** C8. Both hooks report exactly the severities Panic, Fatal and Error:
    a level is in the slice [Levels] returns if and only if it is one of
    the three. *)
Theorem Levels_exactly_panic_fatal_error
    (hook : MailHook.t) (authHook : MailAuthHook.t) (level : logrus.Level) :
  (level ∈ MailHook_Levels hook ↔
     level = logrus.PanicLevel ∨ level = logrus.FatalLevel
     ∨ level = logrus.ErrorLevel)
  ∧ (level ∈ MailAuthHook_Levels authHook ↔
       level = logrus.PanicLevel ∨ level = logrus.FatalLevel
       ∨ level = logrus.ErrorLevel).
Proof.
  unfold MailHook_Levels, MailAuthHook_Levels.
  split; rewrite !elem_of_cons, elem_of_nil; tauto.
Qed.

(** ** The authenticated hook *)

(** C1. [MailAuthHook.Fire] of a hook whose addresses are set builds the
    message from the stack of its own caller, starts one goroutine that
    carries that message, touches no connection and returns nil.  What the
    goroutine later gets from [smtp.SendMail], success or error, is the
    goroutine's alone: [Fire] has already returned. *)
Theorem MailAuthHook_Fire_returns_nil
    (P : Program) (hook : MailAuthHook.t) (stack : list uintptr)
    (entry : logrus.Entry) (w : World) (from to : mail.Address) :
  MailAuthHook.From hook = Some from →
  MailAuthHook.To hook = Some to →
  let message :=
    createMessage P (pc_MailAuthHook_Fire P :: stack) entry
      (MailAuthHook.AppName hook)
      (mail.Address.Address from) (mail.Address.Address to) in
  let g := {| g_hook := hook; g_message := message |} in
  MailAuthHook_Fire P hook stack entry w = (Returns None, spawn g w)
  ∧ conns (spawn g w) = conns w
  ∧ ∀ R : Remote,
      deliver R g =
        Returns (sendMail R
                   (MailAuthHook.Host hook +:+ ":"
                    +:+ strconv.Itoa (MailAuthHook.Port hook))
                   (smtp.PlainAuth "" (MailAuthHook.Username hook)
                      (MailAuthHook.Password hook) (MailAuthHook.Host hook))
                   (mail.Address.Address from) [mail.Address.Address to]
                   message)
      ∧ (MailAuthHook_Fire P hook stack entry w).1 = Returns None.
Proof.
  intros Hfrom Hto message g.
  unfold MailAuthHook_Fire, deliver. simpl. rewrite Hfrom, Hto.
  repeat split; reflexivity.
Qed.

(** The hook fires and returns nil while the relay refuses the mail. *)
Lemma MailAuthHook_Fire_returns_nil_witness :
  (MailAuthHook_Fire Sample.program Sample.authHook Sample.stack
     Sample.diskFull Sample.world).1 = Returns None
  ∧ ∃ g, deliver Sample.rejecting g = Returns (Some "550 sender rejected")
         ∧ goroutines
             (MailAuthHook_Fire Sample.program Sample.authHook Sample.stack
                Sample.diskFull Sample.world).2 = [g].
Proof.
  pose proof (MailAuthHook_Fire_returns_nil Sample.program Sample.authHook
                Sample.stack Sample.diskFull Sample.world _ _
                eq_refl eq_refl) as (Hfire & _ & Hdeliver).
  split; [by rewrite Hfire|].
  eexists. split; [apply (Hdeliver Sample.rejecting)|].
  by rewrite Hfire.
Defined.

(** C10. A hook that [NewMailAuthHook] returns holds the two parsed
    addresses and the host, port, user name and password it was given;
    [Fire] on it therefore reads both addresses and never panics. *)
Theorem NewMailAuthHook_fields
    (R : Remote) (ParseAddress : mail.Parser)
    (appname host : string) (port : Z) (from to username password : string)
    (w w' : World) (hook : MailAuthHook.t) :
  NewMailAuthHook R ParseAddress appname host port from to username password w
    = (inl hook, w') →
  (∃ sender receiver,
      ParseAddress from = inl sender ∧ ParseAddress to = inl receiver
      ∧ MailAuthHook.From hook = Some sender
      ∧ MailAuthHook.To hook = Some receiver)
  ∧ MailAuthHook.AppName hook = appname
  ∧ MailAuthHook.Host hook = host
  ∧ MailAuthHook.Port hook = port
  ∧ MailAuthHook.Username hook = username
  ∧ MailAuthHook.Password hook = password
  ∧ ∀ P stack entry w0,
      (MailAuthHook_Fire P hook stack entry w0).1 = Returns None.
Proof.
  unfold NewMailAuthHook. intros H.
  destruct (net.DialTimeout _ _ _) as [[conn|err] w1]; [|done].
  destruct (ParseAddress from) as [sender|err] eqn:Hfrom; [|done].
  destruct (ParseAddress to) as [receiver|err] eqn:Hto; [|done].
  injection H as <- <-. simpl.
  split; [by exists sender, receiver|].
  repeat split; reflexivity.
Qed.

Lemma NewMailAuthHook_fields_witness :
  ∃ hook w',
    NewMailAuthHook Sample.remote Sample.ParseAddress "svc"
      "smtp.example.com" 25 "ops@example.com" "oncall@example.com"
      "ops" "secret" Sample.world = (inl hook, w')
    ∧ MailAuthHook.Host hook = "smtp.example.com"
    ∧ MailAuthHook.Port hook = 25
    ∧ (MailAuthHook_Fire Sample.program hook Sample.stack Sample.diskFull
         w').1 = Returns None.
Proof.
  eexists _, _. split; [vm_compute; reflexivity|].
  edestruct (NewMailAuthHook_fields Sample.remote Sample.ParseAddress "svc"
               "smtp.example.com" 25 "ops@example.com" "oncall@example.com"
               "ops" "secret" Sample.world)
    as (_ & _ & Hhost & Hport & _ & _ & Hfire); [vm_compute; reflexivity|].
  split; [exact Hhost|]. split; [exact Hport|]. apply Hfire.
Defined.

(** ** The stack-trace section *)

Lemma traceLoop_resolved P callers i trace :
  traceLoop P i callers trace = trace +:+ renderFrames i (resolved P callers).
Proof.
  revert i trace. induction callers as [|pc rest IH]; intros i trace; simpl.
  - by rewrite string_app_nil_r.
  - destruct (FuncForPC P pc) as [function|]; simpl.
    + by rewrite IH, string_app_assoc.
    + by rewrite string_app_nil_r.
Qed.

(** [runtime.Callers(1, callers)] fills the slice with the stack from the
    caller of [Callers] on. *)
Lemma Callers_skip_self self stack n :
  let '(depth, callers) :=
    runtime.Callers (self :: stack) 1 (replicate n 0%N) in
  take depth callers = take n stack.
Proof.
  unfold runtime.Callers. rewrite length_replicate. simpl drop.
  apply take_app_length.
Qed.

Lemma stackTrace_resolved P stack :
  stackTrace P stack =
    renderFrames 0 (resolved P (take (MAX_DEPTH + 1) (pc_createMessage P :: stack))).
Proof.
  unfold stackTrace.
  pose proof (Callers_skip_self (pc_Callers P) (pc_createMessage P :: stack)
                (MAX_DEPTH + 1)) as H.
  destruct (runtime.Callers _ _ _) as [depth callers].
  by rewrite traceLoop_resolved, H.
Qed.

Lemma length_resolved P pcs : (length (resolved P pcs) ≤ length pcs)%nat.
Proof.
  induction pcs as [|pc rest IH]; simpl; [lia|].
  destruct (FuncForPC P pc); simpl; lia.
Qed.

(** Nothing is resolved past a program counter of no known function. *)
Lemma resolved_stops P pcs i pc :
  pcs !! i = Some pc → FuncForPC P pc = None →
  (length (resolved P pcs) ≤ i)%nat.
Proof.
  revert i. induction pcs as [|pc' rest IH]; intros [|i] Hi Hpc; simpl in *;
    try done.
  - injection Hi as ->. by rewrite Hpc.
  - destruct (FuncForPC P pc'); simpl; [|lia].
    specialize (IH i Hi Hpc). lia.
Qed.

Lemma Rev0_traceLoop_lines P stack fuel i trace :
  ∃ n, (n ≤ fuel)%nat
       ∧ Rev0.traceLoop P stack fuel i trace =
           trace +:+ concatStrings (rev0Line P stack <$> seq i n).
Proof.
  revert i trace. induction fuel as [|fuel IH]; intros i trace.
  - exists 0%nat. split; [lia|]. simpl. by rewrite string_app_nil_r.
  - cbn [Rev0.traceLoop].
    assert (∀ n, concatStrings (rev0Line P stack <$> seq i (S n)) =
                 rev0Line P stack i
                 +:+ concatStrings (rev0Line P stack <$> seq (S i) n))
      as Hcons by reflexivity.
    unfold rev0Line in Hcons at 2.
    destruct (runtime.Caller _ _ i) as [[[pc file] line] ok].
    destruct ok; cbn [negb].
    + destruct (IH (S i)
                  (trace +:+ fmt.Sprintf_0d 2 (Z.of_nat i) +:+ ": 0x"
                   +:+ fmt.Sprintf_08x pc +:+ " " +:+ file +:+ ":"
                   +:+ fmt.Sprintf_d line +:+ CRLF)) as (n & Hn & ->).
      exists (S n). split; [lia|]. by rewrite Hcons, !string_app_assoc.
    + exists 1%nat. split; [lia|]. rewrite Hcons.
      cbn [seq fmap list_fmap concatStrings]. by rewrite ?string_app_assoc, string_app_nil_r.
Qed.

(** C3, as the code has it.  The trace of [createMessage] renders the
    frames resolved from the first [MAX_DEPTH + 1] = 101 program counters
    of the stack, the frame of [createMessage] itself first and its callers
    after it: at most 101 frames, and none from the first program counter
    of no known function on.  The trace of the earlier revision has at most
    100 lines and also begins at the builder's own frame. *)
Theorem stackTrace_frames (P : Program) (stack : list uintptr) :
  let frames :=
    resolved P (take (MAX_DEPTH + 1) (pc_createMessage P :: stack)) in
  stackTrace P stack = renderFrames 0 frames
  ∧ (length frames ≤ MAX_DEPTH + 1)%nat
  ∧ (∀ function, FuncForPC P (pc_createMessage P) = Some function →
       head frames = Some (pc_createMessage P, function))
  ∧ (∀ i pc, (pc_createMessage P :: stack) !! i = Some pc →
       FuncForPC P pc = None → (length frames ≤ i)%nat)
  ∧ (∃ n, (n ≤ 100)%nat
          ∧ Rev0.stackTrace P stack =
              concatStrings (rev0Line P stack <$> seq 0 n))
  ∧ (runtime.Caller (FuncForPC P)
       (pc_Callers P :: pc_createMessage P :: stack) 0).1.1.1
    = pc_createMessage P.
Proof.
  intros frames. split; [apply stackTrace_resolved|].
  split.
  { unfold frames. etrans; [apply length_resolved|].
    rewrite length_take. lia. }
  split.
  { intros function Hf. unfold frames. simpl. by rewrite Hf. }
  split.
  { intros i pc Hi Hpc. unfold frames.
    destruct (decide (i < MAX_DEPTH + 1)%nat) as [Hlt|Hge].
    - eapply resolved_stops; [|done]. by rewrite lookup_take_lt.
    - etrans; [apply length_resolved|]. rewrite length_take. lia. }
  split.
  { destruct (Rev0_traceLoop_lines P stack 100 0 "") as (n & Hn & H).
    exists n. split; [done|]. unfold Rev0.stackTrace. by rewrite H. }
  unfold runtime.Caller. simpl.
  by destruct (FuncForPC P (pc_createMessage P)).
Qed.

Lemma stackTrace_frames_witness :
  stackTrace Sample.program Sample.brokenStack =
    renderFrames 0
      [(pc_createMessage Sample.program,
        Sample.function "logrus_mail.createMessage"
          "/src/logrus_mail/mail.go" 0x2000%N);
       (0x5100%N,
        Sample.function "logrus.Entry.log" "/src/logrus/entry.go" 0x5000%N)].
Proof.
  destruct (stackTrace_frames Sample.program Sample.brokenStack) as [H _].
  rewrite H. reflexivity.
Defined.

(** With a stack 150 calls deep the trace shows 101 frames, and the first
    frame of a trace is [createMessage], not its caller. *)
Lemma stackTrace_counterexample :
  ¬ (length (frameLines (stackTrace Sample.program Sample.deepStack)) ≤ 100)%nat
  ∧ head (functionLines (stackTrace Sample.program Sample.stack))
    = Some "logrus_mail.createMessage"
  ∧ head (functionLines (stackTrace Sample.program Sample.stack))
    ≠ (runtime.Name <$> FuncForPC Sample.program (hd 0%N Sample.stack)).
Proof.
  split; [|split].
  - assert (length (frameLines (stackTrace Sample.program Sample.deepStack))
            = 101%nat) as -> by (vm_compute; reflexivity). lia.
  - vm_compute; reflexivity.
  - vm_compute. discriminate.
Qed.

(** ** Headers of a rendered message *)

Lemma string_app_not_nil s t : t ≠ "" → s +:+ t ≠ "".
Proof. by destruct s, t. Qed.

Lemma splitCRLF_blank rest : splitCRLF (CRLF +:+ rest) = "" :: splitCRLF rest.
Proof. reflexivity. Qed.

Lemma headerLines_cons line rest :
  hasCRLF line = false → line ≠ "" →
  headerLines (line +:+ CRLF +:+ rest) = line :: headerLines rest.
Proof.
  intros Hline Hne. unfold headerLines. rewrite splitCRLF_line by done.
  simpl. by rewrite decide_False.
Qed.

Lemma headerLines_blank rest : headerLines (CRLF +:+ rest) = [].
Proof. reflexivity. Qed.

Lemma bodyLines_cons line rest :
  hasCRLF line = false → line ≠ "" →
  bodyLines (line +:+ CRLF +:+ rest) = bodyLines rest.
Proof.
  intros Hline Hne. unfold bodyLines. rewrite splitCRLF_line by done.
  simpl. by rewrite decide_False.
Qed.

Lemma bodyLines_blank rest : bodyLines (CRLF +:+ rest) = splitCRLF rest.
Proof. reflexivity. Qed.

(** An optional header contributes its line, or nothing. *)
Lemma headerLines_optional name value rest :
  hasCRLF (name +:+ ": " +:+ value) = false →
  headerLines (optionalHeader name value +:+ rest) =
    (if decide (value = "") then [] else [name +:+ ": " +:+ value])
    ++ headerLines rest.
Proof.
  intros H. unfold optionalHeader. case_decide; [done|].
  replace ((name +:+ ": " +:+ value +:+ CRLF) +:+ rest)
    with ((name +:+ ": " +:+ value) +:+ CRLF +:+ rest)
    by (by rewrite !string_app_assoc).
  rewrite headerLines_cons; [done|done|].
  by apply string_app_not_nil, string_app_not_nil.
Qed.

Lemma bodyLines_optional name value rest :
  hasCRLF (name +:+ ": " +:+ value) = false →
  bodyLines (optionalHeader name value +:+ rest) = bodyLines rest.
Proof.
  intros H. unfold optionalHeader. case_decide; [done|].
  replace ((name +:+ ": " +:+ value +:+ CRLF) +:+ rest)
    with ((name +:+ ": " +:+ value) +:+ CRLF +:+ rest)
    by (by rewrite !string_app_assoc).
  rewrite bodyLines_cons; [done|done|].
  by apply string_app_not_nil, string_app_not_nil.
Qed.

Lemma hasCRLF_Level_String level :
  hasCRLF (" - " +:+ logrus.Level_String level) = false.
Proof. by destruct level. Qed.

Lemma hasCRLF_subject appname level :
  hasCRLF appname = false →
  hasCRLF ("Subject: " +:+ appname +:+ " - " +:+ logrus.Level_String level)
  = false.
Proof.
  intros H.
  change (hasCRLF (appname +:+ " - " +:+ logrus.Level_String level) = false).
  apply hasCRLF_app; [done|apply hasCRLF_Level_String|reflexivity].
Qed.

(** The header block of a message whose application name and addresses
    hold no CRLF. *)
Lemma createMessage_headerLines P stack entry appname from to :
  hasCRLF appname = false → hasCRLF from = false → hasCRLF to = false →
  headerLines (createMessage P stack entry appname from to) =
    (if decide (from = "") then [] else ["From: " +:+ from])
    ++ (if decide (to = "") then [] else ["To: " +:+ to])
    ++ ["Subject: " +:+ appname +:+ " - "
        +:+ logrus.Level_String (logrus.Entry.Level entry)].
Proof.
  intros Happ Hfrom Hto. rewrite createMessage_eq.
  rewrite (headerLines_optional "From") by exact Hfrom.
  rewrite (headerLines_optional "To") by exact Hto.
  rewrite headerLines_cons.
  - by rewrite headerLines_blank.
  - by apply hasCRLF_subject.
  - done.
Qed.

(** C5, for texts without CRLF.  When the application name and the two
    addresses hold no CRLF sequence, the header block of the rendered
    message has a From field exactly when [from] is not empty, and then
    one with that value; likewise for To; and one Subject field, with the
    value [appname - severity]. *)
Theorem createMessage_headers
    (P : Program) (stack : list uintptr) (entry : logrus.Entry)
    (appname from to : string) :
  hasCRLF appname = false → hasCRLF from = false → hasCRLF to = false →
  let message := createMessage P stack entry appname from to in
  headerValues "From" message = (if decide (from = "") then [] else [from])
  ∧ headerValues "To" message = (if decide (to = "") then [] else [to])
  ∧ headerValues "Subject" message =
      [appname +:+ " - " +:+ logrus.Level_String (logrus.Entry.Level entry)].
Proof.
  intros Happ Hfrom Hto message. unfold headerValues, message.
  rewrite createMessage_headerLines by done.
  repeat case_decide; repeat split; reflexivity.
Qed.

Lemma createMessage_headers_witness :
  let message :=
    createMessage Sample.program Sample.stack Sample.diskFull "svc"
      "ops@example.com" "" in
  headerValues "From" message = ["ops@example.com"]
  ∧ headerValues "To" message = []
  ∧ headerValues "Subject" message = ["svc - error"].
Proof.
  exact (createMessage_headers Sample.program Sample.stack Sample.diskFull
           "svc" "ops@example.com" "" eq_refl eq_refl eq_refl).
Defined.

(** An application name that holds a line break adds a From field to a
    message built with an empty sender. *)
Lemma createMessage_headers_counterexample :
  ¬ (∀ (P : Program) (stack : list uintptr) (entry : logrus.Entry)
       (appname from to : string),
       headerValues "From" (createMessage P stack entry appname from to)
       = (if decide (from = "") then [] else [from])).
Proof.
  intros H.
  specialize (H Sample.program Sample.stack Sample.diskFull
                ("svc" +:+ CRLF +:+ "From: nobody") "" "").
  vm_compute in H. discriminate H.
Qed.

(** ** The unauthenticated hook *)

Lemma exchange_open R c cmd w conn :
  conns w !! c = Some conn →
  Client.exchange R c cmd w =
    (respond R (peer conn) (session conn) cmd,
     withConns w (<[c := {| peer := peer conn;
                            session := session conn ++ [cmd] |}]> (conns w))).
Proof. intros H. unfold Client.exchange. by rewrite H. Qed.

(** What [MailHook.Fire] does on an open session that accepts DATA: it
    writes the message built with empty addresses, ends the data, and
    returns the error of the write. *)
Lemma MailHook_Fire_open P R hook stack entry w conn :
  conns w !! MailHook.c hook = Some conn →
  respond R (peer conn) (session conn) DATA = None →
  let message :=
    createMessage P (pc_MailHook_Fire P :: stack) entry
      (MailHook.AppName hook) "" "" in
  MailHook_Fire P R hook stack entry w =
    (respond R (peer conn) (session conn ++ [DATA]) (WRITE message),
     withConns w
       (<[MailHook.c hook :=
            {| peer := peer conn;
               session := session conn ++ [DATA; WRITE message; DOT] |}]>
          (conns w))).
Proof.
  intros Hconn Hdata message. unfold MailHook_Fire, Client.Data.
  rewrite (exchange_open _ _ _ _ conn Hconn), Hdata.
  unfold Client.WriteTo, Client.Close.
  erewrite exchange_open by apply lookup_insert_eq. simpl.
  assert (∀ (err : option error) (w1 w2 : World), w1 = w2 →
            match err with
            | Some e => (Some e, w1)
            | None => (@None error, w1)
            end = (err, w2)) as Hret by (by intros [e|] ?? ->).
  apply Hret. erewrite exchange_open by apply lookup_insert_eq.
  simpl. unfold withConns. simpl. f_equal.
  rewrite !insert_insert_eq. by rewrite <- !(assoc_L (++)).
Qed.

(** C2, as the code has it.  On an open session that accepts DATA,
    [MailHook.Fire] writes the message built with empty sender and
    recipient: when the application name holds no CRLF, the header block
    of the payload is the Subject line alone, without From or To field. *)
Theorem MailHook_Fire_message
    (P : Program) (R : Remote) (hook : MailHook.t) (stack : list uintptr)
    (entry : logrus.Entry) (w : World) (conn : Conn) :
  conns w !! MailHook.c hook = Some conn →
  respond R (peer conn) (session conn) DATA = None →
  hasCRLF (MailHook.AppName hook) = false →
  let message :=
    createMessage P (pc_MailHook_Fire P :: stack) entry
      (MailHook.AppName hook) "" "" in
  let w' := (MailHook_Fire P R hook stack entry w).2 in
  written w' (MailHook.c hook) = written w (MailHook.c hook) ++ [message]
  ∧ headerLines message =
      ["Subject: " +:+ MailHook.AppName hook +:+ " - "
       +:+ logrus.Level_String (logrus.Entry.Level entry)]
  ∧ headerValues "From" message = []
  ∧ headerValues "To" message = [].
Proof.
  intros Hconn Hdata Happ message w'. subst w'.
  rewrite (MailHook_Fire_open P R hook stack entry w conn Hconn Hdata).
  split.
  { unfold written, withConns. cbn [snd conns session].
    rewrite lookup_insert_eq, Hconn. cbn [session]. by rewrite omap_app. }
  pose proof (createMessage_headerLines P (pc_MailHook_Fire P :: stack) entry
                (MailHook.AppName hook) "" "" Happ eq_refl eq_refl) as Hlines.
  fold message in Hlines. simpl in Hlines.
  split; [exact Hlines|].
  unfold headerValues. rewrite Hlines. split; reflexivity.
Qed.

Lemma MailHook_Fire_message_witness :
  ∃ hook w1,
    NewMailHook Sample.remote Sample.ParseAddress "svc" "smtp.example.com" 25
      "ops@example.com" "oncall@example.com" Sample.world = (inl hook, w1)
    ∧ headerLines
        (createMessage Sample.program
           (pc_MailHook_Fire Sample.program :: Sample.stack)
           Sample.diskFull (MailHook.AppName hook) "" "")
      = ["Subject: svc - error"].
Proof.
  eexists _, _. split; [vm_compute; reflexivity|].
  refine (proj1 (proj2 (MailHook_Fire_message Sample.program Sample.remote
            {| MailHook.AppName := "svc"; MailHook.c := 0%nat |} Sample.stack
            Sample.diskFull
            {| conns := {[ 0%nat := {| peer := "smtp.example.com:25";
                                        session := [MAIL "ops@example.com";
                                                    RCPT "oncall@example.com"] |} ]};
               goroutines := [] |}
            _ _ _ _))).
  - reflexivity.
  - reflexivity.
  - reflexivity.
Defined.

(** A hook made for [ops@example.com] and [oncall@example.com] fires; the
    payload it writes names neither address in a header. *)
Lemma MailHook_Fire_message_counterexample :
  ∃ hook w1 message,
    NewMailHook Sample.remote Sample.ParseAddress "svc" "smtp.example.com" 25
      "ops@example.com" "oncall@example.com" Sample.world = (inl hook, w1)
    ∧ written
        (MailHook_Fire Sample.program Sample.remote hook Sample.stack
           Sample.diskFull w1).2 (MailHook.c hook) = [message]
    ∧ headerValues "From" message ≠ ["ops@example.com"]
    ∧ headerValues "To" message ≠ ["oncall@example.com"].
Proof.
  eexists _, _, _. split; [vm_compute; reflexivity|].
  split; [vm_compute; reflexivity|].
  split; vm_compute; discriminate.
Qed.

(** ** Fields that do not render *)

Lemma MarshalIndent_error v prefix indent err :
  (json.MarshalIndent v prefix indent).2 = Some err →
  (json.MarshalIndent v prefix indent).1 = "".
Proof. unfold json.MarshalIndent. by destruct (json.encode _ _ _ _). Qed.

Lemma MailHook_Fire_error P R hook stack entry w err :
  (MailHook_Fire P R hook stack entry w).1 = Some err → transportError R err.
Proof.
  unfold MailHook_Fire, Client.Data, Client.WriteTo, Client.exchange.
  destruct (conns w !! MailHook.c hook) as [conn|] eqn:Hconn.
  - destruct (respond R (peer conn) (session conn) DATA) as [e|] eqn:Hdata.
    + simpl. intros [= <-]. right. eauto.
    + cbn [withConns conns]. rewrite lookup_insert_eq. cbn [peer session].
      destruct (respond R (peer conn) (session conn ++ [DATA]) _)
        as [e|] eqn:Hwrite; simpl; [|done].
      intros [= <-]. right. eauto.
  - simpl. intros [= <-]. by left.
Qed.

(** C7. When the fields of an entry do not render as JSON,
    [createMessage] still returns the whole message, with nothing between
    the data label and the closing blank lines.  The error goes nowhere:
    [MailAuthHook.Fire] returns nil, and an error [MailHook.Fire] returns
    is one of the transport. *)
Theorem createMessage_fields_error
    (P : Program) (R : Remote) (stack : list uintptr) (entry : logrus.Entry)
    (appname from to : string) (err : error) :
  (json.MarshalIndent (Map (logrus.Entry.Data entry)) "" (String TAB "")).2
    = Some err →
  createMessage P stack entry appname from to =
    optionalHeader "From" from +:+ optionalHeader "To" to
    +:+ "Subject: " +:+ appname +:+ " - "
    +:+ logrus.Level_String (logrus.Entry.Level entry) +:+ CRLF +:+ CRLF
    +:+ time.Format (logrus.Entry.Time entry) format +:+ " - "
    +:+ logrus.Entry.Message entry +:+ CRLF +:+ CRLF
    +:+ stackTrace P stack +:+ CRLF +:+ CRLF
    +:+ "Data:" +:+ CRLF +:+ CRLF +:+ "" +:+ CRLF +:+ CRLF
  ∧ (∀ hook sender receiver w,
       MailAuthHook.From hook = Some sender →
       MailAuthHook.To hook = Some receiver →
       (MailAuthHook_Fire P hook stack entry w).1 = Returns None)
  ∧ (∀ hook w e,
       (MailHook_Fire P R hook stack entry w).1 = Some e →
       transportError R e)
  ∧ (∀ hook w conn message,
       conns w !! MailHook.c hook = Some conn →
       respond R (peer conn) (session conn) DATA = None →
       respond R (peer conn) (session conn ++ [DATA]) (WRITE message) = None →
       message = createMessage P (pc_MailHook_Fire P :: stack) entry
                   (MailHook.AppName hook) "" "" →
       (MailHook_Fire P R hook stack entry w).1 = None).
Proof.
  intros Herr. split; [|split; [|split]].
  - rewrite createMessage_eq, (MarshalIndent_error _ _ _ _ Herr).
    by rewrite !string_app_assoc.
  - intros hook sender receiver w Hfrom Hto. unfold MailAuthHook_Fire.
    by rewrite Hfrom, Hto.
  - intros hook w e. apply MailHook_Fire_error.
  - intros hook w conn message Hconn Hdata Hwrite ->.
    by rewrite (MailHook_Fire_open P R hook stack entry w conn Hconn Hdata).
Qed.

Lemma createMessage_fields_error_witness :
  createMessage Sample.program Sample.stack Sample.withChannel "svc" "" "" =
    "Subject: svc - panic" +:+ CRLF +:+ CRLF
    +:+ "20240101 00:00:00 - worker stuck" +:+ CRLF +:+ CRLF
    +:+ stackTrace Sample.program Sample.stack +:+ CRLF +:+ CRLF
    +:+ "Data:" +:+ CRLF +:+ CRLF +:+ CRLF +:+ CRLF.
Proof.
  exact (proj1 (createMessage_fields_error Sample.program Sample.remote
                  Sample.stack Sample.withChannel "svc" "" ""
                  "json: unsupported type" eq_refl)).
Defined.

(** ** The disk-full scenario *)

(** C6. For the event of 2024-01-01T00:00:00Z at level Error with message
    "disk full" and the field volume = /data, logged by the application
    svc, the message has the subject line "svc - error", a body that
    begins with the line "20240101 00:00:00 - disk full", and after the
    data label the fields as JSON indented with tabs.  Without addresses
    the subject line is the whole header block. *)
Theorem createMessage_disk_full
    (P : Program) (stack : list uintptr) (from to : string) :
  createMessage P stack Sample.diskFull "svc" from to =
    optionalHeader "From" from +:+ optionalHeader "To" to
    +:+ "Subject: svc - error" +:+ CRLF +:+ CRLF
    +:+ "20240101 00:00:00 - disk full" +:+ CRLF +:+ CRLF
    +:+ stackTrace P stack +:+ CRLF +:+ CRLF
    +:+ "Data:" +:+ CRLF +:+ CRLF +:+ Sample.diskFullJSON +:+ CRLF +:+ CRLF
  ∧ headerLines (createMessage P stack Sample.diskFull "svc" "" "")
    = ["Subject: svc - error"]
  ∧ head (bodyLines (createMessage P stack Sample.diskFull "svc" "" ""))
    = Some "20240101 00:00:00 - disk full".
Proof.
  split; [|split].
  - rewrite createMessage_eq. reflexivity.
  - by rewrite createMessage_headerLines.
  - rewrite createMessage_eq. unfold optionalHeader. simpl decide.
    cbv iota. rewrite !string_app_nil_l.
    rewrite bodyLines_cons by done. rewrite bodyLines_blank.
    by rewrite splitCRLF_line.
Qed.

(** ** Construction *)

Lemma withConns_id w : withConns w (conns w) = w.
Proof. by destruct w. Qed.

(** Closing the connection just opened restores the world. *)
Lemma open_Close addr w :
  net.Close (net.open addr w).1 (net.open addr w).2 = w.
Proof.
  unfold net.Close, net.open, withConns. cbn [fst snd conns goroutines].
  rewrite delete_insert_eq, delete_id; [by destruct w|].
  apply not_elem_of_dom, is_fresh.
Qed.

Lemma DialTimeout_reachable R addr w :
  connect R addr = None →
  net.DialTimeout R addr w = (inl (net.open addr w).1, (net.open addr w).2).
Proof. intros H. unfold net.DialTimeout. rewrite H. by destruct (net.open _ _). Qed.

Lemma NewMailAuthHook_reachable R ParseAddress appname host port from to
    username password w :
  connect R (host +:+ ":" +:+ strconv.Itoa port) = None →
  NewMailAuthHook R ParseAddress appname host port from to username password w
  = (match ParseAddress from with
     | inr err => inr err
     | inl sender =>
         match ParseAddress to with
         | inr err => inr err
         | inl receiver =>
             inl {| MailAuthHook.AppName := appname;
                    MailAuthHook.Host := host;
                    MailAuthHook.Port := port;
                    MailAuthHook.From := Some sender;
                    MailAuthHook.To := Some receiver;
                    MailAuthHook.Username := username;
                    MailAuthHook.Password := password |}
         end
     end, w).
Proof.
  intros H. unfold NewMailAuthHook. rewrite (DialTimeout_reachable _ _ _ H).
  destruct (ParseAddress from), (ParseAddress to); by rewrite open_Close.
Qed.

Lemma NewMailHook_reachable R ParseAddress appname host port from to w :
  let addr := host +:+ ":" +:+ strconv.Itoa port in
  connect R addr = None → greeting R addr = None →
  (NewMailHook R ParseAddress appname host port from to w).1
  = match ParseAddress from with
    | inr err => inr err
    | inl sender =>
        match ParseAddress to with
        | inr err => inr err
        | inl recipient =>
            match respond R addr [] (MAIL (mail.Address.Address sender)) with
            | Some err => inr err
            | None =>
                match respond R addr [MAIL (mail.Address.Address sender)]
                        (RCPT (mail.Address.Address recipient)) with
                | Some err => inr err
                | None => inl {| MailHook.AppName := appname;
                                 MailHook.c := (net.open addr w).1 |}
                end
            end
        end
    end.
Proof.
  intros addr Hconnect Hgreeting. unfold NewMailHook, smtp_Dial.
  fold addr. rewrite (DialTimeout_reachable _ _ _ Hconnect), Hgreeting.
  destruct (ParseAddress from) as [sender|]; [|done].
  destruct (ParseAddress to) as [recipient|]; [|done].
  unfold Client.Mail, Client.Rcpt.
  erewrite exchange_open by apply lookup_insert_eq. cbn [peer session].
  destruct (respond R addr [] _); [done|].
  erewrite exchange_open by apply lookup_insert_eq. cbn [peer session app].
  by destruct (respond R addr [_] _).
Qed.

(** C4, as the code has it.  With a reachable host, [NewMailAuthHook]
    succeeds exactly when both addresses parse, and [NewMailHook] exactly
    when both parse and the server accepts the sender and the recipient.
    When an address does not parse both fail with the error of the parser,
    and [NewMailAuthHook] leaves the connections as they were. *)
Theorem construction_succeeds_iff
    (R : Remote) (ParseAddress : mail.Parser) (appname host : string)
    (port : Z) (from to username password : string) (w : World) :
  let addr := host +:+ ":" +:+ strconv.Itoa port in
  let authenticated :=
    NewMailAuthHook R ParseAddress appname host port from to username
      password w in
  let plain := NewMailHook R ParseAddress appname host port from to w in
  let malformed err :=
    ParseAddress from = inr err
    ∨ ∃ sender, ParseAddress from = inl sender ∧ ParseAddress to = inr err in
  connect R addr = None →
  ((∃ hook, authenticated.1 = inl hook) ↔
     ∃ sender receiver,
       ParseAddress from = inl sender ∧ ParseAddress to = inl receiver)
  ∧ (∀ err, malformed err → authenticated = (inr err, w))
  ∧ conns authenticated.2 = conns w
  ∧ (greeting R addr = None →
     ((∃ hook, plain.1 = inl hook) ↔
        ∃ sender recipient,
          ParseAddress from = inl sender ∧ ParseAddress to = inl recipient
          ∧ respond R addr [] (MAIL (mail.Address.Address sender)) = None
          ∧ respond R addr [MAIL (mail.Address.Address sender)]
              (RCPT (mail.Address.Address recipient)) = None)
     ∧ ∀ err, malformed err → plain.1 = inr err).
Proof.
  intros addr authenticated plain malformed Hconnect.
  subst authenticated plain malformed. cbv beta.
  rewrite (NewMailAuthHook_reachable _ _ _ _ _ _ _ _ _ _ Hconnect).
  cbn [fst snd].
  split; [|split; [|split; [done|]]].
  - destruct (ParseAddress from) as [sender|e1];
      [destruct (ParseAddress to) as [receiver|e2]|]; split;
      try (intros [hook [=]]); try (intros (s & r & [=] & [=]));
      eauto.
  - intros err [Hfrom|(sender & Hfrom & Hto)]; by rewrite Hfrom, ?Hto.
  - intros Hgreeting.
    rewrite (NewMailHook_reachable _ _ _ _ _ _ _ _ Hconnect Hgreeting).
    fold addr. split.
    + destruct (ParseAddress from) as [sender|e1];
        [destruct (ParseAddress to) as [recipient|e2]|].
      * destruct (respond R addr [] _) as [e3|] eqn:Hmail;
          [|destruct (respond R addr [_] _) as [e4|] eqn:Hrcpt]; split;
          try (intros [hook [=]]);
          try (intros (s & r & [= <-] & [= <-] & Hm & Hr); congruence);
          eauto 10.
      * split; [intros [hook [=]]|intros (s & r & _ & [=] & _)].
      * split; [intros [hook [=]]|intros (s & r & [=] & _)].
    + intros err [Hfrom|(sender & Hfrom & Hto)]; by rewrite Hfrom, ?Hto.
Qed.

Lemma construction_succeeds_iff_witness :
  (∃ hook,
      (NewMailAuthHook Sample.remote Sample.ParseAddress "svc"
         "smtp.example.com" 25 "ops@example.com" "oncall@example.com"
         "ops" "secret" Sample.world).1 = inl hook)
  ∧ NewMailAuthHook Sample.remote Sample.ParseAddress "svc"
      "smtp.example.com" 25 "ops" "oncall@example.com" "ops" "secret"
      Sample.world = (inr "mail: missing @ in address", Sample.world).
Proof.
  split.
  - apply (construction_succeeds_iff Sample.remote Sample.ParseAddress "svc"
             "smtp.example.com" 25 "ops@example.com" "oncall@example.com"
             "ops" "secret" Sample.world eq_refl).
    eexists _, _. split; reflexivity.
  - apply (construction_succeeds_iff Sample.remote Sample.ParseAddress "svc"
             "smtp.example.com" 25 "ops" "oncall@example.com"
             "ops" "secret" Sample.world eq_refl).
    by left.
Defined.

(** Both addresses parse and the host is reachable, and [NewMailHook]
    fails all the same: the server refuses the sender. *)
Lemma construction_succeeds_iff_counterexample :
  ¬ (∀ (R : Remote) (ParseAddress : mail.Parser) (appname host : string)
       (port : Z) (from to : string) (w : World),
       connect R (host +:+ ":" +:+ strconv.Itoa port) = None →
       greeting R (host +:+ ":" +:+ strconv.Itoa port) = None →
       (∃ hook,
          (NewMailHook R ParseAddress appname host port from to w).1
          = inl hook) ↔
       ∃ sender recipient,
         ParseAddress from = inl sender ∧ ParseAddress to = inl recipient).
Proof.
  intros H.
  destruct (H Sample.rejecting Sample.ParseAddress "svc" "smtp.example.com" 25
              "ops@example.com" "oncall@example.com" Sample.world
              eq_refl eq_refl) as [_ Hsucceeds].
  destruct Hsucceeds as [hook Hhook].
  - eexists _, _. split; reflexivity.
  - vm_compute in Hhook. discriminate Hhook.
Qed.

(** [NewMailHook] given a malformed sender: the connection it dialled is
    still open when it returns the error. *)
Example NewMailHook_malformed_sender :
  let '(result, w) :=
    NewMailHook Sample.remote Sample.ParseAddress "svc" "smtp.example.com" 25
      "ops" "oncall@example.com" Sample.world in
  result = inr "mail: missing @ in address"
  ∧ conns w !! 0%nat
    = Some {| peer := "smtp.example.com:25"; session := [] |}.
Proof. vm_compute. split; reflexivity. Qed.

(** ** Determinism *)

Section encode_members.
Context (enc : any → option string).

(** Rendering the members keeps their keys. *)
Lemma mapM_renderMember_keys members items :
  mapM (json.renderMember enc) members = Some items →
  items.*1 = members.*1.
Proof.
  rewrite mapM_Some. induction 1 as [|kv item ?? Hitem _ IH]; [done|].
  unfold json.renderMember in Hitem. csimpl. f_equal; [|done].
  destruct (enc _); by simplify_eq/=.
Qed.

(** The order in which the members are visited does not matter to
    whether they all render, nor to what they render to. *)
Lemma mapM_renderMember_Permutation m1 m2 :
  m1 ≡ₚ m2 →
  match mapM (json.renderMember enc) m1, mapM (json.renderMember enc) m2 with
  | Some items1, Some items2 => items1 ≡ₚ items2
  | None, None => True
  | _, _ => False
  end.
Proof.
  induction 1 as [|x l1 l2 _ IH|x y l|l1 l2 l3 _ IH1 _ IH2]; csimpl.
  - done.
  - destruct (json.renderMember enc x); csimpl; [|done].
    destruct (mapM _ l1), (mapM _ l2); csimpl; try done.
    by constructor.
  - destruct (json.renderMember enc x), (json.renderMember enc y);
      csimpl; try done.
    destruct (mapM _ l); csimpl; [|done]. apply perm_swap.
  - destruct (mapM _ l1), (mapM _ l2), (mapM _ l3); try done. by etrans.
Qed.

End encode_members.

Lemma encode_Map prefix indent depth members :
  json.encode prefix indent depth (Map members) =
    items ← mapM (json.renderMember (json.encode prefix indent (S depth)))
              members;
    Some (json.block "{" "}" prefix indent depth
            (json.member <$> merge_sort json.keyLe items)).
Proof. reflexivity. Qed.

Global Instance keyLe_trans : Transitive json.keyLe.
Proof. intros x y z. unfold json.keyLe. apply transitivity. Qed.

Global Instance keyLe_total : Total json.keyLe.
Proof. intros x y. unfold json.keyLe. apply total, _. Qed.

(** Members with distinct keys have one sorted order. *)
Lemma merge_sort_keyLe_Permutation (items1 items2 : list (string * string)) :
  NoDup items1.*1 → items1 ≡ₚ items2 →
  merge_sort json.keyLe items1 = merge_sort json.keyLe items2.
Proof.
  intros Hkeys Hperm.
  apply (StronglySorted_unique_strong json.keyLe).
  - intros x1 x2 Hx1 Hx2 H12 H21.
    rewrite merge_sort_Permutation in Hx1.
    rewrite merge_sort_Permutation, <- Hperm in Hx2.
    assert (x1.1 = x2.1) as Hkey by (by apply (anti_symm String.le)).
    clear H12 H21 Hperm. induction items1 as [|item items IH]; [by inv Hx1|].
    apply NoDup_cons in Hkeys as [Hitem Hkeys].
    apply elem_of_cons in Hx1 as [->|Hx1], Hx2 as [->|Hx2]; [done|..|by apply IH].
    + destruct Hitem. rewrite Hkey. by apply list_elem_of_fmap_2.
    + destruct Hitem. rewrite <- Hkey. by apply list_elem_of_fmap_2.
  - apply StronglySorted_merge_sort; apply _.
  - apply StronglySorted_merge_sort; apply _.
  - by rewrite !merge_sort_Permutation.
Qed.

(** A map renders to the same bytes however its members are listed. *)
Lemma MarshalIndent_Permutation m1 m2 prefix indent :
  NoDup m1.*1 → m1 ≡ₚ m2 →
  json.MarshalIndent (Map m1) prefix indent
  = json.MarshalIndent (Map m2) prefix indent.
Proof.
  intros Hkeys Hperm. unfold json.MarshalIndent. rewrite !encode_Map.
  pose proof (mapM_renderMember_Permutation
                (json.encode prefix indent 1) m1 m2 Hperm) as H.
  pose proof (mapM_renderMember_keys (json.encode prefix indent 1) m1) as Hk.
  destruct (mapM _ m1) as [items1|], (mapM _ m2) as [items2|]; try done.
  csimpl. rewrite (merge_sort_keyLe_Permutation items1 items2); [done| |done].
  by rewrite (Hk items1).
Qed.

(** C9. [createMessage] is a function of the stack it is called on, of
    the time, level, message and fields of the entry, and of the
    application name and the two addresses: two entries that agree on the
    first three and hold the same fields, listed in whatever order, give
    the same bytes. *)
Theorem createMessage_deterministic
    (P : Program) (stack : list uintptr) (entry1 entry2 : logrus.Entry)
    (appname from to : string) :
  logrus.Entry.Time entry1 = logrus.Entry.Time entry2 →
  logrus.Entry.Level entry1 = logrus.Entry.Level entry2 →
  logrus.Entry.Message entry1 = logrus.Entry.Message entry2 →
  NoDup (logrus.Entry.Data entry1).*1 →
  logrus.Entry.Data entry1 ≡ₚ logrus.Entry.Data entry2 →
  createMessage P stack entry1 appname from to
  = createMessage P stack entry2 appname from to.
Proof.
  intros Htime Hlevel Hmessage Hkeys Hdata.
  rewrite !createMessage_eq, Htime, Hlevel, Hmessage.
  by rewrite (MarshalIndent_Permutation _ _ _ _ Hkeys Hdata).
Qed.

Lemma createMessage_deterministic_witness :
  createMessage Sample.program Sample.stack Sample.twoFields "svc"
    "ops@example.com" "oncall@example.com"
  = createMessage Sample.program Sample.stack Sample.twoFieldsSwapped "svc"
      "ops@example.com" "oncall@example.com".
Proof.
  apply createMessage_deterministic; try reflexivity.
  - apply NoDup_cons. split; [|apply NoDup_singleton].
    intros H. apply list_elem_of_singleton in H. discriminate H.
  - apply perm_swap.
Defined.

(** The earlier revision writes a line for the position past the end of
    the stack before it leaves the loop. *)
Example Rev0_stackTrace_past_the_end :
  splitCRLF (Rev0.stackTrace Sample.program Sample.stack) =
    ["00: 0x00002040 /src/logrus_mail/mail.go:64";
     "01: 0x00005100 /src/logrus/entry.go:256";
     "02: 0x00006200 /src/app/main.go:512";
     "03: 0x00000000 :0";
     ""].
Proof. reflexivity. Qed.

(** * Further properties of the hooks *)

(** ** Construction: failures and what is left behind *)

(** X1. When the host cannot be reached both constructors return the error of
    the dial, whatever the addresses are, and change nothing. *)
Theorem constructors_unreachable
    (R : Remote) (ParseAddress : mail.Parser) (appname host : string)
    (port : Z) (from to username password : string) (w : World) (err : error) :
  connect R (host +:+ ":" +:+ strconv.Itoa port) = Some err →
  NewMailHook R ParseAddress appname host port from to w = (inr err, w)
  ∧ NewMailAuthHook R ParseAddress appname host port from to username
      password w = (inr err, w).
Proof.
  intros H. unfold NewMailHook, NewMailAuthHook, smtp_Dial, net.DialTimeout.
  by rewrite H.
Qed.

Lemma constructors_unreachable_witness :
  NewMailHook Sample.remote Sample.ParseAddress "svc" "nowhere.example.com" 25
    "not an address" "oncall@example.com" Sample.world
  = (inr "dial tcp: connection refused", Sample.world).
Proof.
  exact (proj1 (constructors_unreachable Sample.remote Sample.ParseAddress
                  "svc" "nowhere.example.com" 25 "not an address"
                  "oncall@example.com" "" "" Sample.world
                  "dial tcp: connection refused" eq_refl)).
Defined.

(** X2. [NewMailAuthHook] only probes: whether it succeeds or fails, the world
    it returns is the world it was given. *)
Theorem NewMailAuthHook_world
    (R : Remote) (ParseAddress : mail.Parser) (appname host : string)
    (port : Z) (from to username password : string) (w : World) :
  (NewMailAuthHook R ParseAddress appname host port from to username
     password w).2 = w.
Proof.
  destruct (connect R (host +:+ ":" +:+ strconv.Itoa port)) as [err|] eqn:H.
  - unfold NewMailAuthHook, net.DialTimeout. by rewrite H.
  - by rewrite (NewMailAuthHook_reachable _ _ _ _ _ _ _ _ _ _ H).
Qed.

(** The world [NewMailHook] leaves once the dial has succeeded: the world
    it was given and one more connection, on which it sent the commands up
    to the first one refused. *)
Lemma NewMailHook_reachable_world R ParseAddress appname host port from to w :
  let addr := host +:+ ":" +:+ strconv.Itoa port in
  connect R addr = None → greeting R addr = None →
  (NewMailHook R ParseAddress appname host port from to w).2 =
    withConns w
      (<[(net.open addr w).1 :=
           {| peer := addr;
              session :=
                match ParseAddress from, ParseAddress to with
                | inl sender, inl recipient =>
                    MAIL (mail.Address.Address sender)
                    :: match respond R addr []
                               (MAIL (mail.Address.Address sender)) with
                       | Some _ => []
                       | None => [RCPT (mail.Address.Address recipient)]
                       end
                | _, _ => []
                end |}]> (conns w)).
Proof.
  intros addr Hconnect Hgreeting. unfold NewMailHook, smtp_Dial.
  fold addr. rewrite (DialTimeout_reachable _ _ _ Hconnect), Hgreeting.
  destruct (ParseAddress from) as [sender|]; [|done].
  destruct (ParseAddress to) as [recipient|]; [|done].
  unfold Client.Mail, Client.Rcpt.
  erewrite exchange_open by apply lookup_insert_eq. cbn [peer session app].
  destruct (respond R addr [] _).
  { cbn [snd]. unfold net.open, withConns. cbn [fst snd conns goroutines].
    by rewrite insert_insert_eq. }
  erewrite exchange_open by apply lookup_insert_eq. cbn [peer session app].
  assert (∀ (e : option error) (h : MailHook.t) (w1 : World),
            (match e with
             | Some err => (inr err, w1)
             | None => (inl h, w1)
             end : (MailHook.t + error) * World).2 = w1) as Hsnd
    by (by intros [?|] ??).
  rewrite Hsnd. unfold net.open, withConns. cbn [fst snd conns goroutines].
  by rewrite !insert_insert_eq.
Qed.

Lemma open_fresh addr w : conns w !! (net.open addr w).1 = None.
Proof. apply not_elem_of_dom, is_fresh. Qed.

(** What a successful [NewMailHook] has done, for use below. *)
Lemma NewMailHook_inl
    (R : Remote) (ParseAddress : mail.Parser) (appname host : string)
    (port : Z) (from to : string) (w w' : World) (hook : MailHook.t) :
  NewMailHook R ParseAddress appname host port from to w = (inl hook, w') →
  ∃ sender recipient,
    ParseAddress from = inl sender ∧ ParseAddress to = inl recipient
    ∧ MailHook.AppName hook = appname
    ∧ conns w !! MailHook.c hook = None
    ∧ w' = withConns w
             (<[MailHook.c hook :=
                  {| peer := host +:+ ":" +:+ strconv.Itoa port;
                     session := [MAIL (mail.Address.Address sender);
                                 RCPT (mail.Address.Address recipient)] |}]>
                (conns w)).
Proof.
  intros H. set (addr := host +:+ ":" +:+ strconv.Itoa port).
  destruct (connect R addr) as [e|] eqn:Hconnect.
  { unfold NewMailHook, smtp_Dial, net.DialTimeout in H. fold addr in H.
    by rewrite Hconnect in H. }
  destruct (greeting R addr) as [e|] eqn:Hgreeting.
  { unfold NewMailHook, smtp_Dial in H. fold addr in H.
    by rewrite (DialTimeout_reachable _ _ _ Hconnect), Hgreeting in H. }
  pose proof (NewMailHook_reachable R ParseAddress appname host port from to w
                Hconnect Hgreeting) as H1.
  pose proof (NewMailHook_reachable_world R ParseAddress appname host port
                from to w Hconnect Hgreeting) as H2.
  rewrite H in H1, H2. cbn [fst snd] in H1, H2. fold addr in H1, H2.
  destruct (ParseAddress from) as [sender|]; [|done].
  destruct (ParseAddress to) as [recipient|]; [|done].
  destruct (respond R addr [] _); [done|].
  destruct (respond R addr [_] _); [done|].
  injection H1 as ->. exists sender, recipient.
  repeat split; [apply (open_fresh addr)|exact H2].
Qed.

(** X3. A hook [NewMailHook] returns holds the application name and a
    connection that was not open before; the world is the one given plus
    that connection, on which the sender and the recipient parsed from the
    arguments were declared, in this order, and nothing else was sent. *)
Theorem NewMailHook_success
    (R : Remote) (ParseAddress : mail.Parser) (appname host : string)
    (port : Z) (from to : string) (w w' : World) (hook : MailHook.t) :
  NewMailHook R ParseAddress appname host port from to w = (inl hook, w') →
  ∃ sender recipient,
    ParseAddress from = inl sender ∧ ParseAddress to = inl recipient
    ∧ MailHook.AppName hook = appname
    ∧ conns w !! MailHook.c hook = None
    ∧ w' = withConns w
             (<[MailHook.c hook :=
                  {| peer := host +:+ ":" +:+ strconv.Itoa port;
                     session := [MAIL (mail.Address.Address sender);
                                 RCPT (mail.Address.Address recipient)] |}]>
                (conns w)).
Proof. apply NewMailHook_inl. Qed.

Lemma NewMailHook_success_witness :
  ∃ hook w',
    NewMailHook Sample.remote Sample.ParseAddress "svc" "smtp.example.com" 25
      "ops@example.com" "oncall@example.com" Sample.world = (inl hook, w')
    ∧ conns Sample.world !! MailHook.c hook = None
    ∧ written w' (MailHook.c hook) = [].
Proof.
  eexists _, _. split; [vm_compute; reflexivity|].
  destruct (NewMailHook_success Sample.remote Sample.ParseAddress "svc"
              "smtp.example.com" 25 "ops@example.com" "oncall@example.com"
              Sample.world _ _ eq_refl)
    as (sender & recipient & _ & _ & _ & Hfresh & _).
  split; [exact Hfresh|reflexivity].
Defined.

(** X4. When [NewMailHook] fails after the dial has succeeded, the connection
    it dialled stays open in the world it returns.  If the failure is a
    malformed address, no command was sent on that connection. *)
Theorem NewMailHook_failure_leaves_connection
    (R : Remote) (ParseAddress : mail.Parser) (appname host : string)
    (port : Z) (from to : string) (w w' : World) (err : error) :
  let addr := host +:+ ":" +:+ strconv.Itoa port in
  let fd := fresh (dom (conns w)) in
  connect R addr = None → greeting R addr = None →
  NewMailHook R ParseAddress appname host port from to w = (inr err, w') →
  conns w !! fd = None
  ∧ ∃ sent,
      conns w' = <[fd := {| peer := addr; session := sent |}]> (conns w)
      ∧ ((∃ e, ParseAddress from = inr e) ∨ (∃ e, ParseAddress to = inr e) →
         sent = []).
Proof.
  intros addr fd Hconnect Hgreeting H.
  split; [apply (open_fresh addr w)|].
  pose proof (NewMailHook_reachable_world R ParseAddress appname host port
                from to w Hconnect Hgreeting) as H2.
  rewrite H in H2. cbn [snd] in H2. fold addr in H2. subst w'.
  eexists. split; [reflexivity|].
  intros [[e He]|[e He]]; rewrite He; [done|].
  by destruct (ParseAddress from).
Qed.

Lemma NewMailHook_failure_leaves_connection_witness :
  conns
    (NewMailHook Sample.rejecting Sample.ParseAddress "svc" "smtp.example.com"
       25 "ops@example.com" "oncall@example.com" Sample.world).2
  ≠ conns Sample.world.
Proof.
  destruct (NewMailHook_failure_leaves_connection Sample.rejecting
              Sample.ParseAddress "svc" "smtp.example.com" 25
              "ops@example.com" "oncall@example.com" Sample.world
              (NewMailHook Sample.rejecting Sample.ParseAddress "svc"
                 "smtp.example.com" 25 "ops@example.com"
                 "oncall@example.com" Sample.world).2
              "550 sender rejected" eq_refl eq_refl)
    as (Hfresh & sent & Hconns & _); [vm_compute; reflexivity|].
  intros Heq. rewrite Hconns in Heq.
  apply (f_equal (λ m : gmap nat Conn, m !! fresh (dom (conns Sample.world))))
    in Heq.
  rewrite lookup_insert_eq, Hfresh in Heq. discriminate Heq.
Defined.

(** ** The unauthenticated hook: what a delivery does to the session *)

Lemma MailHook_Fire_refused P R hook stack entry w conn err :
  conns w !! MailHook.c hook = Some conn →
  respond R (peer conn) (session conn) DATA = Some err →
  MailHook_Fire P R hook stack entry w =
    (Some err,
     withConns w
       (<[MailHook.c hook :=
            {| peer := peer conn; session := session conn ++ [DATA] |}]>
          (conns w))).
Proof.
  intros Hconn Hdata. unfold MailHook_Fire, Client.Data.
  by rewrite (exchange_open _ _ _ _ conn Hconn), Hdata.
Qed.

Lemma MailHook_Fire_closed P R hook stack entry w :
  conns w !! MailHook.c hook = None →
  (MailHook_Fire P R hook stack entry w).2 = w.
Proof.
  intros Hconn. unfold MailHook_Fire, Client.Data, Client.exchange.
  by rewrite Hconn.
Qed.

(** X5. [MailHook.Fire] neither opens nor closes a connection and starts no
    goroutine: every other connection is as it was, and on the hook's own
    connection the session only grows. *)
Theorem MailHook_Fire_frame
    (P : Program) (R : Remote) (hook : MailHook.t) (stack : list uintptr)
    (entry : logrus.Entry) (w : World) :
  let w' := (MailHook_Fire P R hook stack entry w).2 in
  goroutines w' = goroutines w
  ∧ (∀ c, c ≠ MailHook.c hook → conns w' !! c = conns w !! c)
  ∧ match conns w !! MailHook.c hook with
    | None => conns w' !! MailHook.c hook = None
    | Some conn =>
        ∃ sent, conns w' !! MailHook.c hook
                = Some {| peer := peer conn;
                          session := session conn ++ sent |}
    end.
Proof.
  intros w'. subst w'.
  destruct (conns w !! MailHook.c hook) as [conn|] eqn:Hconn.
  - destruct (respond R (peer conn) (session conn) DATA) as [err|] eqn:Hdata.
    + rewrite (MailHook_Fire_refused P R hook stack entry w conn err Hconn Hdata).
      unfold withConns. cbn [snd conns goroutines].
      split; [done|]. split.
      * intros c Hc. by rewrite lookup_insert_ne.
      * eexists. apply lookup_insert_eq.
    + rewrite (MailHook_Fire_open P R hook stack entry w conn Hconn Hdata).
      unfold withConns. cbn [snd conns goroutines].
      split; [done|]. split.
      * intros c Hc. by rewrite lookup_insert_ne.
      * eexists. apply lookup_insert_eq.
  - rewrite (MailHook_Fire_closed P R hook stack entry w Hconn).
    by rewrite Hconn.
Qed.

(** X6. When the server refuses DATA, [MailHook.Fire] returns that error;
    no payload is written and the data is not ended: the session has the
    DATA command as its last entry. *)
Theorem MailHook_Fire_data_refused
    (P : Program) (R : Remote) (hook : MailHook.t) (stack : list uintptr)
    (entry : logrus.Entry) (w : World) (conn : Conn) (err : error) :
  conns w !! MailHook.c hook = Some conn →
  respond R (peer conn) (session conn) DATA = Some err →
  let '(result, w') := MailHook_Fire P R hook stack entry w in
  result = Some err
  ∧ written w' (MailHook.c hook) = written w (MailHook.c hook)
  ∧ conns w' !! MailHook.c hook
    = Some {| peer := peer conn; session := session conn ++ [DATA] |}.
Proof.
  intros Hconn Hdata.
  rewrite (MailHook_Fire_refused P R hook stack entry w conn err Hconn Hdata).
  split; [done|]. unfold written, withConns. cbn [conns].
  rewrite lookup_insert_eq, Hconn. cbn [session].
  rewrite omap_app. split; [apply (right_id_L [] (++))|done].
Qed.

Lemma MailHook_Fire_data_refused_witness :
  (MailHook_Fire Sample.program
     {| connect := connect Sample.remote; greeting := greeting Sample.remote;
        respond := λ _ _ _, Some "503 bad sequence of commands";
        sendMail := sendMail Sample.remote |}
     Sample.hook Sample.stack Sample.diskFull Sample.connected).1
  = Some "503 bad sequence of commands".
Proof.
  pose proof (MailHook_Fire_data_refused Sample.program
                {| connect := connect Sample.remote;
                   greeting := greeting Sample.remote;
                   respond := λ _ _ _, Some "503 bad sequence of commands";
                   sendMail := sendMail Sample.remote |}
                Sample.hook Sample.stack Sample.diskFull Sample.connected
                _ "503 bad sequence of commands" eq_refl eq_refl) as H.
  destruct (MailHook_Fire _ _ _ _ _ _) as [result w']. apply H.
Defined.

(** X7. When the write to the data channel fails, [MailHook.Fire] returns
    that error and still ends the data: the deferred close runs. *)
Theorem MailHook_Fire_write_error_closes
    (P : Program) (R : Remote) (hook : MailHook.t) (stack : list uintptr)
    (entry : logrus.Entry) (w : World) (conn : Conn) (err : error) :
  let message :=
    createMessage P (pc_MailHook_Fire P :: stack) entry
      (MailHook.AppName hook) "" "" in
  conns w !! MailHook.c hook = Some conn →
  respond R (peer conn) (session conn) DATA = None →
  respond R (peer conn) (session conn ++ [DATA]) (WRITE message) = Some err →
  let '(result, w') := MailHook_Fire P R hook stack entry w in
  result = Some err
  ∧ conns w' !! MailHook.c hook
    = Some {| peer := peer conn;
              session := session conn ++ [DATA; WRITE message; DOT] |}.
Proof.
  intros message Hconn Hdata Hwrite.
  rewrite (MailHook_Fire_open P R hook stack entry w conn Hconn Hdata).
  fold message. rewrite Hwrite. split; [done|].
  unfold withConns. cbn [conns]. apply lookup_insert_eq.
Qed.

Lemma MailHook_Fire_write_error_closes_witness :
  (MailHook_Fire Sample.program
     {| connect := connect Sample.remote; greeting := greeting Sample.remote;
        respond := λ _ _ cmd,
          match cmd with
          | WRITE _ => Some "write: broken pipe"
          | _ => None
          end;
        sendMail := sendMail Sample.remote |}
     Sample.hook Sample.stack Sample.diskFull Sample.connected).1
  = Some "write: broken pipe".
Proof.
  pose proof (MailHook_Fire_write_error_closes Sample.program
                {| connect := connect Sample.remote;
                   greeting := greeting Sample.remote;
                   respond := λ _ _ cmd,
                     match cmd with
                     | WRITE _ => Some "write: broken pipe"
                     | _ => None
                     end;
                   sendMail := sendMail Sample.remote |}
                Sample.hook Sample.stack Sample.diskFull Sample.connected
                _ "write: broken pipe" eq_refl eq_refl eq_refl) as H.
  destruct (MailHook_Fire _ _ _ _ _ _) as [result w']. apply H.
Defined.

(** X8. The error of the deferred close is dropped: when the server takes the
    data and refuses the message at the final dot, [MailHook.Fire] returns
    nil. *)
Theorem MailHook_Fire_close_error_dropped
    (P : Program) (R : Remote) (hook : MailHook.t) (stack : list uintptr)
    (entry : logrus.Entry) (w : World) (conn : Conn) (err : error) :
  let message :=
    createMessage P (pc_MailHook_Fire P :: stack) entry
      (MailHook.AppName hook) "" "" in
  conns w !! MailHook.c hook = Some conn →
  respond R (peer conn) (session conn) DATA = None →
  respond R (peer conn) (session conn ++ [DATA]) (WRITE message) = None →
  respond R (peer conn) (session conn ++ [DATA; WRITE message]) DOT
    = Some err →
  (MailHook_Fire P R hook stack entry w).1 = None.
Proof.
  intros message Hconn Hdata Hwrite _.
  rewrite (MailHook_Fire_open P R hook stack entry w conn Hconn Hdata).
  exact Hwrite.
Qed.

Lemma MailHook_Fire_close_error_dropped_witness :
  (MailHook_Fire Sample.program Sample.rejectingAtEnd Sample.hook
     Sample.stack Sample.diskFull Sample.connected).1 = None.
Proof.
  exact (MailHook_Fire_close_error_dropped Sample.program
           Sample.rejectingAtEnd Sample.hook Sample.stack Sample.diskFull
           Sample.connected _ "554 message refused"
           eq_refl eq_refl eq_refl eq_refl).
Defined.

(** X9. Two deliveries in a row on one hook, to a server that accepts them:
    both return nil, and the one session carries the two payloads in the
    order of the calls, each between its own DATA and final dot. *)
Theorem MailHook_Fire_twice
    (P : Program) (R : Remote) (hook : MailHook.t)
    (stack1 stack2 : list uintptr) (entry1 entry2 : logrus.Entry)
    (w : World) (conn : Conn) :
  let message1 :=
    createMessage P (pc_MailHook_Fire P :: stack1) entry1
      (MailHook.AppName hook) "" "" in
  let message2 :=
    createMessage P (pc_MailHook_Fire P :: stack2) entry2
      (MailHook.AppName hook) "" "" in
  conns w !! MailHook.c hook = Some conn →
  accepting R (peer conn) →
  let '(result1, w1) := MailHook_Fire P R hook stack1 entry1 w in
  let '(result2, w2) := MailHook_Fire P R hook stack2 entry2 w1 in
  result1 = None ∧ result2 = None
  ∧ written w2 (MailHook.c hook)
    = written w (MailHook.c hook) ++ [message1; message2]
  ∧ conns w2 !! MailHook.c hook
    = Some {| peer := peer conn;
              session := session conn
                         ++ [DATA; WRITE message1; DOT;
                             DATA; WRITE message2; DOT] |}.
Proof.
  intros message1 message2 Hconn Haccept.
  rewrite (MailHook_Fire_open P R hook stack1 entry1 w conn Hconn (Haccept _ _)).
  fold message1. rewrite Haccept.
  erewrite (MailHook_Fire_open P R hook stack2 entry2);
    [|apply lookup_insert_eq|apply Haccept].
  fold message2. cbn [peer session]. rewrite Haccept.
  split; [done|]. split; [done|].
  unfold written, withConns. cbn [conns].
  rewrite insert_insert_eq, lookup_insert_eq, Hconn. cbn [session].
  rewrite <- !(assoc_L (++)). split; [|done].
  by rewrite omap_app.
Qed.

Lemma MailHook_Fire_twice_witness :
  let '(result1, w1) :=
    MailHook_Fire Sample.program Sample.remote Sample.hook Sample.stack
      Sample.diskFull Sample.connected in
  let '(result2, w2) :=
    MailHook_Fire Sample.program Sample.remote Sample.hook Sample.brokenStack
      Sample.withChannel w1 in
  result1 = None ∧ result2 = None
  ∧ length (written w2 (MailHook.c Sample.hook)) = 2%nat.
Proof.
  pose proof (MailHook_Fire_twice Sample.program Sample.remote Sample.hook
                Sample.stack Sample.brokenStack Sample.diskFull
                Sample.withChannel Sample.connected _ eq_refl
                (λ _ _, eq_refl)) as H.
  destruct (MailHook_Fire _ _ _ Sample.stack _ _) as [result1 w1].
  destruct (MailHook_Fire _ _ _ Sample.brokenStack _ _) as [result2 w2].
  destruct H as (H1 & H2 & Hwritten & _).
  split; [exact H1|]. split; [exact H2|]. by rewrite Hwritten.
Defined.

(** X10. Construction and delivery together: on a hook [NewMailHook] has just
    returned, with a server that accepts what it is sent, [Fire] returns
    nil and the session reads: sender, recipient, DATA, the message built
    without addresses, final dot. *)
Theorem NewMailHook_then_Fire
    (P : Program) (R : Remote) (ParseAddress : mail.Parser)
    (appname host : string) (port : Z) (from to : string)
    (stack : list uintptr) (entry : logrus.Entry)
    (w w1 : World) (hook : MailHook.t) :
  let addr := host +:+ ":" +:+ strconv.Itoa port in
  let message :=
    createMessage P (pc_MailHook_Fire P :: stack) entry appname "" "" in
  NewMailHook R ParseAddress appname host port from to w = (inl hook, w1) →
  accepting R addr →
  let '(result, w2) := MailHook_Fire P R hook stack entry w1 in
  result = None
  ∧ ∃ sender recipient,
      ParseAddress from = inl sender ∧ ParseAddress to = inl recipient
      ∧ conns w2 !! MailHook.c hook
        = Some {| peer := addr;
                  session := [MAIL (mail.Address.Address sender);
                              RCPT (mail.Address.Address recipient);
                              DATA; WRITE message; DOT] |}.
Proof.
  intros addr message Hnew Haccept.
  destruct (NewMailHook_inl _ _ _ _ _ _ _ _ _ _ Hnew)
    as (sender & recipient & Hfrom & Hto & Happ & _ & ->).
  erewrite (MailHook_Fire_open P R hook stack entry);
    [|unfold withConns; cbn [conns]; apply lookup_insert_eq|apply Haccept].
  cbn [peer session]. rewrite Happ. fold addr message. rewrite Haccept.
  split; [done|]. exists sender, recipient.
  split; [done|]. split; [done|].
  unfold withConns. cbn [conns]. by rewrite insert_insert_eq, lookup_insert_eq.
Qed.

Lemma NewMailHook_then_Fire_witness :
  ∃ hook w1,
    NewMailHook Sample.remote Sample.ParseAddress "svc" "smtp.example.com" 25
      "ops@example.com" "oncall@example.com" Sample.world = (inl hook, w1)
    ∧ (MailHook_Fire Sample.program Sample.remote hook Sample.stack
         Sample.diskFull w1).1 = None.
Proof.
  eexists _, _. split; [vm_compute; reflexivity|].
  pose proof (NewMailHook_then_Fire Sample.program Sample.remote
                Sample.ParseAddress "svc" "smtp.example.com" 25
                "ops@example.com" "oncall@example.com" Sample.stack
                Sample.diskFull Sample.world _ _ eq_refl (λ _ _, eq_refl))
    as H.
  destruct (MailHook_Fire _ _ _ _ _ _) as [result w2]. apply H.
Defined.

(** ** The authenticated hook: outcomes and the mail it hands over *)

(** X11. [MailAuthHook.Fire] never returns an error and never touches a
    connection.  It either returns nil, having started exactly one
    goroutine for this hook, or panics, which it does exactly when the
    sender or the recipient of the hook is nil, and then the world is
    unchanged. *)
Theorem MailAuthHook_Fire_outcomes
    (P : Program) (hook : MailAuthHook.t) (stack : list uintptr)
    (entry : logrus.Entry) (w : World) :
  let '(out, w') := MailAuthHook_Fire P hook stack entry w in
  conns w' = conns w
  ∧ (∀ err, out ≠ Returns (Some err))
  ∧ (out = Returns None ↔
       is_Some (MailAuthHook.From hook) ∧ is_Some (MailAuthHook.To hook))
  ∧ (out = Returns None →
       ∃ g, goroutines w' = goroutines w ++ [g] ∧ g_hook g = hook)
  ∧ ((∃ reason, out = Panics reason) → w' = w).
Proof.
  unfold MailAuthHook_Fire.
  destruct (MailAuthHook.From hook) as [from|] eqn:Hfrom;
    [destruct (MailAuthHook.To hook) as [to|] eqn:Hto|].
  - split; [done|]. split; [by intros err [=]|].
    split; [split; [intros _; split; eauto|done]|].
    split; [intros _; eexists; split; reflexivity|].
    by intros [reason [=]].
  - split; [done|]. split; [by intros err [=]|].
    split; [split; [by intros [=]|intros [_ [x [=]]]]|].
    split; [by intros [=]|done].
  - split; [done|]. split; [by intros err [=]|].
    split; [split; [by intros [=]|intros [[x [=]] _]]|].
    split; [by intros [=]|done].
Qed.

(** X12. Construction and delivery together: for a hook [NewMailAuthHook] has
    returned, [Fire] starts a goroutine that hands [smtp.SendMail] the
    host and port, the plain credentials, and as envelope sender and
    recipient the parsed addresses; when these and the application name
    hold no CRLF, the From and To headers of the payload are the same two
    addresses. *)
Theorem NewMailAuthHook_then_Fire
    (P : Program) (R : Remote) (ParseAddress : mail.Parser)
    (appname host : string) (port : Z) (from to username password : string)
    (stack : list uintptr) (entry : logrus.Entry)
    (w w1 w2 : World) (hook : MailAuthHook.t) (sender receiver : mail.Address) :
  NewMailAuthHook R ParseAddress appname host port from to username password w
    = (inl hook, w1) →
  ParseAddress from = inl sender → ParseAddress to = inl receiver →
  hasCRLF appname = false →
  hasCRLF (mail.Address.Address sender) = false →
  hasCRLF (mail.Address.Address receiver) = false →
  mail.Address.Address sender ≠ "" → mail.Address.Address receiver ≠ "" →
  ∃ g,
    MailAuthHook_Fire P hook stack entry w2 = (Returns None, spawn g w2)
    ∧ deliver R g =
        Returns (sendMail R (host +:+ ":" +:+ strconv.Itoa port)
                   (smtp.PlainAuth "" username password host)
                   (mail.Address.Address sender)
                   [mail.Address.Address receiver] (g_message g))
    ∧ headerValues "From" (g_message g) = [mail.Address.Address sender]
    ∧ headerValues "To" (g_message g) = [mail.Address.Address receiver].
Proof.
  intros Hnew Hfrom Hto Happ Hs Hr Hsne Hrne.
  unfold NewMailAuthHook in Hnew.
  destruct (net.DialTimeout _ _ _) as [[conn|err] w0]; [|done].
  rewrite Hfrom, Hto in Hnew. injection Hnew as <- _.
  eexists. split; [reflexivity|]. split; [reflexivity|].
  cbn [g_message MailAuthHook.AppName].
  unfold headerValues. rewrite createMessage_headerLines by done.
  rewrite !decide_False by done. split; reflexivity.
Qed.

Lemma NewMailAuthHook_then_Fire_witness :
  ∃ hook g,
    NewMailAuthHook Sample.remote Sample.ParseAddress "svc"
      "smtp.example.com" 25 "ops@example.com" "oncall@example.com"
      "ops" "secret" Sample.world = (inl hook, Sample.world)
    ∧ MailAuthHook_Fire Sample.program hook Sample.stack Sample.diskFull
        Sample.world = (Returns None, spawn g Sample.world)
    ∧ headerValues "From" (g_message g) = ["ops@example.com"].
Proof.
  destruct (NewMailAuthHook_then_Fire Sample.program Sample.remote
              Sample.ParseAddress "svc" "smtp.example.com" 25
              "ops@example.com" "oncall@example.com" "ops" "secret"
              Sample.stack Sample.diskFull Sample.world Sample.world
              Sample.world Sample.authHook
              {| mail.Address.Name := "";
                 mail.Address.Address := "ops@example.com" |}
              {| mail.Address.Name := "";
                 mail.Address.Address := "oncall@example.com" |})
    as (g & Hfire & _ & Hfrom & _);
    [vm_compute; reflexivity|reflexivity|reflexivity|reflexivity|reflexivity
    |reflexivity|discriminate|discriminate|].
  exists Sample.authHook, g.
  split; [vm_compute; reflexivity|]. split; [exact Hfire|exact Hfrom].
Defined.

(** ** The earlier revision of the authenticated hook *)

(** X13. The earlier revision sends the mail before it returns, changes
    nothing in the world, and returns what [smtp.SendMail] returned.  For
    a server whose verdict does not depend on the payload, that is the very
    outcome the goroutine of the present revision ends with, unseen. *)
Theorem Rev0_Fire_returns_what_is_now_dropped
    (P : Program) (R : Remote) (hook : MailAuthHook.t) (stack : list uintptr)
    (entry : logrus.Entry) (w : World) (from to : mail.Address) :
  MailAuthHook.From hook = Some from →
  MailAuthHook.To hook = Some to →
  (∀ addr auth sender recipients message message',
     sendMail R addr auth sender recipients message
     = sendMail R addr auth sender recipients message') →
  ∃ g,
    MailAuthHook_Fire P hook stack entry w = (Returns None, spawn g w)
    ∧ Rev0_MailAuthHook_Fire P R hook stack entry w = (deliver R g, w).
Proof.
  intros Hfrom Hto Hsame. unfold MailAuthHook_Fire, Rev0_MailAuthHook_Fire.
  rewrite Hfrom, Hto. eexists. split; [reflexivity|].
  unfold deliver. cbn [g_hook g_message]. rewrite Hfrom, Hto.
  assert (∀ (o : option error) (w0 : World),
            match o with
            | Some err => (Returns (Some err), w0)
            | None => (Returns None, w0)
            end = (Returns o, w0)) as -> by (by intros [?|] ?).
  do 2 f_equal. apply Hsame.
Qed.

Lemma Rev0_Fire_returns_what_is_now_dropped_witness :
  Rev0_MailAuthHook_Fire Sample.program Sample.rejecting Sample.authHook
    Sample.stack Sample.diskFull Sample.world
  = (Returns (Some "550 sender rejected"), Sample.world)
  ∧ (MailAuthHook_Fire Sample.program Sample.authHook Sample.stack
       Sample.diskFull Sample.world).1 = Returns None.
Proof.
  destruct (Rev0_Fire_returns_what_is_now_dropped Sample.program
              Sample.rejecting Sample.authHook Sample.stack Sample.diskFull
              Sample.world _ _ eq_refl eq_refl (λ _ _ _ _ _ _, eq_refl))
    as (g & Hfire & Hrev0).
  split.
  - rewrite Hrev0. injection Hfire as <-. reflexivity.
  - by rewrite Hfire.
Defined.

(** ** Texts without carriage return *)

Lemma hasCR_app s t : hasCR (s +:+ t) = hasCR s || hasCR t.
Proof.
  induction s as [|c s IH]; [done|].
  rewrite string_app_cons. simpl. by rewrite IH, orb_assoc.
Qed.

(** A prefix without carriage return adds no CRLF. *)
Lemma hasCRLF_app_noCR s t : hasCR s = false → hasCRLF (s +:+ t) = hasCRLF t.
Proof.
  induction s as [|c s IH]; [done|]. intros H. simpl in H.
  apply orb_false_iff in H as [Hc Hs].
  rewrite string_app_cons. simpl. by rewrite Hc, IH.
Qed.

Lemma hasCR_hasCRLF s : hasCR s = false → hasCRLF s = false.
Proof.
  intros H. rewrite <- (string_app_nil_r s). by rewrite hasCRLF_app_noCR.
Qed.

Lemma digit_not_CR d : (d < 16)%N → Ascii.eqb (fmt.digit d) CR = false.
Proof.
  intros Hd. apply Ascii.eqb_neq. unfold fmt.digit. intros H.
  apply (f_equal N_of_ascii) in H.
  rewrite N_ascii_embedding in H by (destruct (d <? 10)%N; lia).
  change (N_of_ascii CR) with 13%N in H. destruct (d <? 10)%N; lia.
Qed.

Lemma hasCR_digits fuel base n acc :
  (0 < base ≤ 16)%N → hasCR acc = false →
  hasCR (fmt.digits fuel base n acc) = false.
Proof.
  intros Hbase. revert n acc. induction fuel as [|fuel IH]; intros n acc Hacc.
  - done.
  - rewrite digits_S.
    assert (hasCR (String (fmt.digit (n mod base)%N) acc) = false) as Hacc'.
    { simpl. rewrite Hacc, digit_not_CR; [done|].
      pose proof (N.mod_upper_bound n base). lia. }
    destruct (n / base =? 0)%N; [done|by apply IH].
Qed.

Lemma hasCR_zeroPad width s : hasCR s = false → hasCR (fmt.zeroPad width s) = false.
Proof.
  intros H. unfold fmt.zeroPad. rewrite hasCR_app, H, orb_false_r.
  induction (width - String.length s)%nat as [|k IH]; [done|exact IH].
Qed.

Lemma hasCR_formatUint base n :
  (0 < base ≤ 16)%N → hasCR (fmt.formatUint base n) = false.
Proof. intros H. by apply hasCR_digits. Qed.

Lemma hasCR_Sprintf_0d width z : hasCR (fmt.Sprintf_0d width z) = false.
Proof.
  unfold fmt.Sprintf_0d.
  destruct (z <? 0); [rewrite string_app_cons, string_app_nil_l; simpl|];
    apply hasCR_zeroPad, hasCR_formatUint; lia.
Qed.

Lemma hasCR_Sprintf_08x n : hasCR (fmt.Sprintf_08x n) = false.
Proof. apply hasCR_zeroPad, hasCR_formatUint. lia. Qed.

Lemma hasCR_appendInt x width : hasCR (time.appendInt x width) = false.
Proof.
  unfold time.appendInt.
  destruct (x <? 0); [rewrite string_app_cons, string_app_nil_l; simpl|];
    apply hasCR_zeroPad, hasCR_formatUint; lia.
Qed.

(** The time stamp of the body is eight digits, a space and the clock. *)
Lemma Format_format t :
  time.Format t format =
    time.appendInt (time.Year t) 4 +:+ time.appendInt (time.Month t) 2
    +:+ time.appendInt (time.Day t) 2 +:+ " "
    +:+ time.appendInt (time.Hour t) 2 +:+ ":"
    +:+ time.appendInt (time.Minute t) 2 +:+ ":"
    +:+ time.appendInt (time.Second t) 2.
Proof.
  rewrite <- (string_app_nil_r (time.appendInt (time.Second t) 2)).
  reflexivity.
Qed.

Lemma hasCR_Format t : hasCR (time.Format t format) = false.
Proof.
  rewrite Format_format, !hasCR_app, !hasCR_appendInt. reflexivity.
Qed.

(** ** The text of the stack-trace section *)

(** The entry of one frame is five lines. *)
Lemma splitCRLF_frameEntry i pc function rest :
  hasCRLF (runtime.Name function) = false →
  hasCRLF (runtime.FileLine function pc).1 = false →
  splitCRLF (frameEntry i pc function +:+ rest) =
    ("Frame " +:+ frameLabel i)
    :: (String TAB "File: " +:+ (runtime.FileLine function pc).1)
    :: (String TAB "Function: " +:+ runtime.Name function)
    :: (String TAB "Line: " +:+ fmt.Sprintf_d (runtime.FileLine function pc).2)
    :: (String TAB "PC/Entry: 0x" +:+ fmt.Sprintf_08x pc +:+ "/0x"
        +:+ fmt.Sprintf_08x (runtime.Entry function))
    :: splitCRLF rest.
Proof.
  intros Hname Hfile. unfold frameEntry, frameLabel.
  destruct (runtime.FileLine function pc) as [file line]. cbn [fst snd] in *.
  set (l1 := "Frame " +:+ fmt.Sprintf_0d 2 (Z.of_nat i) +:+ ":").
  set (l2 := String TAB "File: " +:+ file).
  set (l3 := String TAB "Function: " +:+ runtime.Name function).
  set (l4 := String TAB "Line: " +:+ fmt.Sprintf_d line).
  set (l5 := String TAB "PC/Entry: 0x" +:+ fmt.Sprintf_08x pc +:+ "/0x"
             +:+ fmt.Sprintf_08x (runtime.Entry function)).
  assert (hasCRLF l1 = false) as H1.
  { change (hasCRLF ((fmt.Sprintf_0d 2 (Z.of_nat i)) +:+ ":") = false).
    by rewrite hasCRLF_app_noCR by apply hasCR_Sprintf_0d. }
  assert (hasCRLF l2 = false) as H2 by exact Hfile.
  assert (hasCRLF l3 = false) as H3 by exact Hname.
  assert (hasCRLF l4 = false) as H4.
  { change (hasCRLF (fmt.Sprintf_d line) = false).
    apply hasCR_hasCRLF, hasCR_Sprintf_0d. }
  assert (hasCRLF l5 = false) as H5.
  { change (hasCRLF (fmt.Sprintf_08x pc +:+ "/0x"
                     +:+ fmt.Sprintf_08x (runtime.Entry function)) = false).
    rewrite hasCRLF_app_noCR by apply hasCR_Sprintf_08x.
    apply hasCR_hasCRLF, hasCR_Sprintf_08x. }
  transitivity (splitCRLF (l1 +:+ CRLF +:+ l2 +:+ CRLF +:+ l3 +:+ CRLF
                           +:+ l4 +:+ CRLF +:+ l5 +:+ CRLF +:+ rest)).
  { f_equal. subst l1 l2 l3 l4 l5. rewrite !string_app_assoc. reflexivity. }
  rewrite (splitCRLF_line l1) by exact H1.
  rewrite (splitCRLF_line l2) by exact H2.
  rewrite (splitCRLF_line l3) by exact H3.
  rewrite (splitCRLF_line l4) by exact H4.
  rewrite (splitCRLF_line l5) by exact H5.
  reflexivity.
Qed.

Lemma resolved_FuncForPC P pcs :
  Forall (λ frame, FuncForPC P frame.1 = Some frame.2) (resolved P pcs).
Proof.
  induction pcs as [|pc rest IH]; simpl; [constructor|].
  destruct (FuncForPC P pc) as [function|] eqn:H; by constructor.
Qed.

Section trace_text.
Context (P : Program) (Hclean : cleanSymbols P).

Lemma frameLines_renderFrames i frames :
  Forall (λ frame, FuncForPC P frame.1 = Some frame.2) frames →
  frameLines (renderFrames i frames) = frameLabel <$> seq i (length frames).
Proof.
  intros Hframes. revert i.
  induction Hframes as [|[pc function] frames Hf _ IH]; intros i; [done|].
  destruct (Hclean pc function Hf) as [Hname Hfile].
  cbn [renderFrames length seq fmap list_fmap]. unfold frameLines.
  rewrite splitCRLF_frameEntry by done.
  change (omap (stripPrefix "Frame ") (?l1 :: _ :: _ :: _ :: _ :: ?rest))
    with (from_option (λ x, [x]) [] (stripPrefix "Frame " l1)
          ++ omap (stripPrefix "Frame ") rest).
  rewrite stripPrefix_app. cbn [from_option app]. f_equal. apply IH.
Qed.

Lemma functionLines_renderFrames i frames :
  Forall (λ frame, FuncForPC P frame.1 = Some frame.2) frames →
  functionLines (renderFrames i frames)
  = (λ frame, runtime.Name frame.2) <$> frames.
Proof.
  intros Hframes. revert i.
  induction Hframes as [|[pc function] frames Hf _ IH]; intros i; [done|].
  destruct (Hclean pc function Hf) as [Hname Hfile].
  cbn [renderFrames fmap list_fmap]. unfold functionLines.
  rewrite splitCRLF_frameEntry by done.
  change (omap (stripPrefix (String TAB "Function: "))
            (_ :: _ :: ?l3 :: _ :: _ :: ?rest))
    with (from_option (λ x, [x]) []
            (stripPrefix (String TAB "Function: ") l3)
          ++ omap (stripPrefix (String TAB "Function: ")) rest).
  rewrite stripPrefix_app. cbn [from_option app snd]. f_equal. apply IH.
Qed.

End trace_text.

(** X14. For a symbol table whose names hold no line break, the trace has one
    [Frame NN:] line for each resolved frame, numbered from 00 without a
    gap, and so at most 101 of them. *)
Theorem stackTrace_frame_numbering (P : Program) (stack : list uintptr) :
  cleanSymbols P →
  let frames :=
    resolved P (take (MAX_DEPTH + 1) (pc_createMessage P :: stack)) in
  frameLines (stackTrace P stack) = frameLabel <$> seq 0 (length frames)
  ∧ (length (frameLines (stackTrace P stack)) ≤ MAX_DEPTH + 1)%nat.
Proof.
  intros Hclean frames.
  assert (frameLines (stackTrace P stack)
          = frameLabel <$> seq 0 (length frames)) as H.
  { rewrite stackTrace_resolved.
    apply (frameLines_renderFrames P Hclean), resolved_FuncForPC. }
  split; [exact H|].
  rewrite H, length_fmap, length_seq. unfold frames.
  etrans; [apply length_resolved|]. rewrite length_take. lia.
Qed.

(** X15. For a symbol table whose names hold no line break, the
    functions the trace names are those of
    the resolved frames, innermost first: the builder itself, then its
    callers in order. *)
Theorem stackTrace_function_order (P : Program) (stack : list uintptr) :
  cleanSymbols P →
  functionLines (stackTrace P stack)
  = (λ frame, runtime.Name frame.2)
      <$> resolved P (take (MAX_DEPTH + 1) (pc_createMessage P :: stack)).
Proof.
  intros Hclean. rewrite stackTrace_resolved.
  apply (functionLines_renderFrames P Hclean), resolved_FuncForPC.
Qed.

Lemma Sample_program_clean : cleanSymbols Sample.program.
Proof.
  intros pc function. unfold Sample.program. cbn [FuncForPC].
  repeat case_match; intros [= <-]; split; reflexivity.
Defined.

Lemma stackTrace_frame_numbering_witness :
  frameLines (stackTrace Sample.program Sample.stack)
  = ["00:"; "01:"; "02:"].
Proof.
  destruct (stackTrace_frame_numbering Sample.program Sample.stack
              Sample_program_clean) as [H _].
  rewrite H. reflexivity.
Defined.

Lemma stackTrace_function_order_witness :
  functionLines (stackTrace Sample.program Sample.stack)
  = ["logrus_mail.createMessage"; "logrus.Entry.log"; "main.work"].
Proof.
  rewrite (stackTrace_function_order Sample.program Sample.stack
             Sample_program_clean).
  reflexivity.
Defined.

(** X16. Frames beyond the first [MAX_DEPTH] callers of the builder are never
    looked at: two stacks that agree on their first 100 frames give the
    same message. *)
Theorem createMessage_ignores_deep_frames
    (P : Program) (stack stack' : list uintptr) (entry : logrus.Entry)
    (appname from to : string) :
  take MAX_DEPTH stack = take MAX_DEPTH stack' →
  createMessage P stack entry appname from to
  = createMessage P stack' entry appname from to.
Proof.
  intros H. rewrite !createMessage_eq, !stackTrace_resolved.
  change (take (MAX_DEPTH + 1) (pc_createMessage P :: stack))
    with (pc_createMessage P :: take MAX_DEPTH stack).
  change (take (MAX_DEPTH + 1) (pc_createMessage P :: stack'))
    with (pc_createMessage P :: take MAX_DEPTH stack').
  by rewrite H.
Qed.

Lemma createMessage_ignores_deep_frames_witness :
  createMessage Sample.program Sample.deepStack Sample.diskFull "svc" "" ""
  = createMessage Sample.program (Sample.deepStack ++ [0x9000%N])
      Sample.diskFull "svc" "" "".
Proof.
  apply createMessage_ignores_deep_frames. vm_compute. reflexivity.
Defined.

(** ** The lines of a message *)

(** X17. When the application name, the addresses and the log message hold no
    CRLF, the message reads: the From line if there is a sender, the To
    line if there is a recipient, the Subject line, a blank line, then the
    body, which begins with the line [time - message] and a blank line. *)
Theorem createMessage_lines
    (P : Program) (stack : list uintptr) (entry : logrus.Entry)
    (appname from to : string) :
  hasCRLF appname = false → hasCRLF from = false → hasCRLF to = false →
  hasCRLF (logrus.Entry.Message entry) = false →
  let message := createMessage P stack entry appname from to in
  headerLines message =
    (if decide (from = "") then [] else ["From: " +:+ from])
    ++ (if decide (to = "") then [] else ["To: " +:+ to])
    ++ ["Subject: " +:+ appname +:+ " - "
        +:+ logrus.Level_String (logrus.Entry.Level entry)]
  ∧ take 2 (bodyLines message) =
      [time.Format (logrus.Entry.Time entry) format +:+ " - "
       +:+ logrus.Entry.Message entry; ""].
Proof.
  intros Happ Hfrom Hto Hmessage message. subst message.
  split; [by apply createMessage_headerLines|].
  rewrite createMessage_eq.
  rewrite (bodyLines_optional "From") by exact Hfrom.
  rewrite (bodyLines_optional "To") by exact Hto.
  rewrite bodyLines_cons; [|by apply hasCRLF_subject|done].
  rewrite bodyLines_blank, splitCRLF_line, splitCRLF_blank; [done|].
  by rewrite hasCRLF_app_noCR by apply hasCR_Format.
Qed.

Lemma createMessage_lines_witness :
  take 2 (bodyLines
            (createMessage Sample.program Sample.stack Sample.withChannel
               "svc" "ops@example.com" "oncall@example.com"))
  = ["20240101 00:00:00 - worker stuck"; ""].
Proof.
  exact (proj2 (createMessage_lines Sample.program Sample.stack
                  Sample.withChannel "svc" "ops@example.com"
                  "oncall@example.com" eq_refl eq_refl eq_refl eq_refl)).
Defined.

(** ** The earlier revision of the builder *)

(** The earlier revision's message as one concatenation. *)
Lemma Rev0_createMessage_eq P stack entry appname from to :
  Rev0.createMessage P stack entry appname from to =
    ("From: " +:+ from) +:+ CRLF +:+ ("To: " +:+ to) +:+ CRLF
    +:+ ("Subject: " +:+ appname +:+ " - "
         +:+ logrus.Level_String (logrus.Entry.Level entry))
    +:+ CRLF +:+ CRLF
    +:+ (time.Format (logrus.Entry.Time entry) format +:+ " - "
         +:+ logrus.Entry.Message entry)
    +:+ CRLF +:+ "Trace:" +:+ CRLF +:+ Rev0.stackTrace P stack
    +:+ CRLF +:+ CRLF
    +:+ (json.MarshalIndent (Map (logrus.Entry.Data entry)) "" (String TAB "")).1.
Proof.
  unfold Rev0.createMessage.
  destruct (json.MarshalIndent _ _ _) as [fields err]. cbn [fst].
  rewrite !string_app_assoc. reflexivity.
Qed.

(** X18. The earlier revision writes the From and the To line whatever the
    addresses are, an empty address included. *)
Theorem Rev0_createMessage_headers
    (P : Program) (stack : list uintptr) (entry : logrus.Entry)
    (appname from to : string) :
  hasCRLF appname = false → hasCRLF from = false → hasCRLF to = false →
  let message := Rev0.createMessage P stack entry appname from to in
  headerLines message =
    ["From: " +:+ from; "To: " +:+ to;
     "Subject: " +:+ appname +:+ " - "
     +:+ logrus.Level_String (logrus.Entry.Level entry)]
  ∧ headerValues "From" message = [from]
  ∧ headerValues "To" message = [to].
Proof.
  intros Happ Hfrom Hto message. subst message.
  assert (headerLines (Rev0.createMessage P stack entry appname from to) =
            ["From: " +:+ from; "To: " +:+ to;
             "Subject: " +:+ appname +:+ " - "
             +:+ logrus.Level_String (logrus.Entry.Level entry)]) as H.
  { rewrite Rev0_createMessage_eq.
    rewrite headerLines_cons; [|exact Hfrom|by rewrite string_app_cons].
    rewrite headerLines_cons; [|exact Hto|by rewrite string_app_cons].
    rewrite headerLines_cons; [|by apply hasCRLF_subject|done].
    by rewrite headerLines_blank. }
  split; [exact H|]. unfold headerValues. rewrite H.
  split; reflexivity.
Qed.

Lemma Rev0_createMessage_headers_witness :
  headerLines
    (Rev0.createMessage Sample.program Sample.stack Sample.diskFull "svc"
       "" "")
  = ["From: "; "To: "; "Subject: svc - error"].
Proof.
  exact (proj1 (Rev0_createMessage_headers Sample.program Sample.stack
                  Sample.diskFull "svc" "" "" eq_refl eq_refl eq_refl)).
Defined.

(** [runtime.Caller] finds a frame exactly up to the outermost one. *)
Lemma Caller_ok F self own stack i :
  (runtime.Caller F (self :: own :: stack) i).2
  = bool_decide (i ≤ length stack)%nat.
Proof.
  unfold runtime.Caller. cbn [drop].
  destruct (drop i (own :: stack)) as [|pc rest] eqn:Hdrop.
  - apply (f_equal length) in Hdrop. rewrite length_drop in Hdrop.
    cbn [length] in Hdrop. rewrite bool_decide_eq_false_2 by lia. done.
  - apply (f_equal length) in Hdrop. rewrite length_drop in Hdrop.
    cbn [length] in Hdrop. rewrite bool_decide_eq_true_2 by lia.
    by destruct (F pc).
Qed.

Lemma Rev0_traceLoop_exact P stack fuel i trace :
  (i ≤ length stack + 1)%nat →
  Rev0.traceLoop P stack fuel i trace =
    trace +:+ concatStrings
                (rev0Line P stack
                   <$> seq i (min fuel (length stack + 2 - i))).
Proof.
  revert i trace. induction fuel as [|fuel IH]; intros i trace Hi.
  - simpl. by rewrite string_app_nil_r.
  - cbn [Rev0.traceLoop].
    pose proof (Caller_ok (FuncForPC P) (pc_Callers P) (pc_createMessage P)
                  stack i) as Hok.
    assert (∀ n, concatStrings (rev0Line P stack <$> seq i (S n)) =
                 rev0Line P stack i
                 +:+ concatStrings (rev0Line P stack <$> seq (S i) n))
      as Hcons by reflexivity.
    unfold rev0Line in Hcons at 2.
    destruct (runtime.Caller _ _ i) as [[[pc file] line] ok].
    cbn [snd] in Hok. subst ok. case_bool_decide as Hle; cbn [negb].
    + rewrite IH by lia.
      replace (min (S fuel) (length stack + 2 - i))
        with (S (min fuel (length stack + 2 - S i))) by lia.
      by rewrite Hcons, !string_app_assoc.
    + replace (min (S fuel) (length stack + 2 - i)) with 1%nat by lia.
      rewrite Hcons. cbn [seq fmap list_fmap concatStrings].
      by rewrite ?string_app_assoc, string_app_nil_r.
Qed.

(** X19. The trace of the earlier revision has one line for each frame from
    the builder's own outwards and, unless that already makes 100, one
    more line for the position past the outermost frame; that line shows a
    zero program counter, no file and line 0. *)
Theorem Rev0_stackTrace_lines (P : Program) (stack : list uintptr) :
  Rev0.stackTrace P stack =
    concatStrings
      (rev0Line P stack <$> seq 0 (min 100 (length stack + 2)))
  ∧ ∀ i, (length stack < i)%nat →
      rev0Line P stack i =
        fmt.Sprintf_0d 2 (Z.of_nat i) +:+ ": 0x00000000 :0" +:+ CRLF.
Proof.
  split.
  - unfold Rev0.stackTrace. rewrite Rev0_traceLoop_exact by lia.
    by rewrite Nat.sub_0_r.
  - intros i Hi. unfold rev0Line, runtime.Caller. cbn [drop].
    rewrite drop_ge by (cbn [length]; lia). reflexivity.
Qed.

Lemma Rev0_stackTrace_lines_witness :
  rev0Line Sample.program Sample.stack 3
  = "03: 0x00000000 :0" +:+ CRLF.
Proof.
  exact (proj2 (Rev0_stackTrace_lines Sample.program Sample.stack) 3%nat
           ltac:(vm_compute; lia)).
Defined.

(** X20. In the earlier revision the body begins with the line
    [time - message] and the label [Trace:] follows on the next line,
    when the texts given hold no CRLF. *)
Theorem Rev0_createMessage_body
    (P : Program) (stack : list uintptr) (entry : logrus.Entry)
    (appname from to : string) :
  hasCRLF appname = false → hasCRLF from = false → hasCRLF to = false →
  hasCRLF (logrus.Entry.Message entry) = false →
  take 2 (bodyLines (Rev0.createMessage P stack entry appname from to)) =
    [time.Format (logrus.Entry.Time entry) format +:+ " - "
     +:+ logrus.Entry.Message entry; "Trace:"].
Proof.
  intros Happ Hfrom Hto Hmessage. rewrite Rev0_createMessage_eq.
  rewrite bodyLines_cons; [|exact Hfrom|by rewrite string_app_cons].
  rewrite bodyLines_cons; [|exact Hto|by rewrite string_app_cons].
  rewrite bodyLines_cons; [|by apply hasCRLF_subject|done].
  rewrite bodyLines_blank, splitCRLF_line.
  - by rewrite (splitCRLF_line "Trace:").
  - by rewrite hasCRLF_app_noCR by apply hasCR_Format.
Qed.

Lemma Rev0_createMessage_body_witness :
  take 2 (bodyLines
            (Rev0.createMessage Sample.program Sample.stack Sample.diskFull
               "svc" "ops@example.com" "oncall@example.com"))
  = ["20240101 00:00:00 - disk full"; "Trace:"].
Proof.
  exact (Rev0_createMessage_body Sample.program Sample.stack Sample.diskFull
           "svc" "ops@example.com" "oncall@example.com"
           eq_refl eq_refl eq_refl eq_refl).
Defined.

Lemma length_resolved_all P pcs :
  Forall (λ pc, is_Some (FuncForPC P pc)) pcs →
  length (resolved P pcs) = length pcs.
Proof.
  induction 1 as [|pc rest [function Hf] _ IH]; [done|].
  simpl. rewrite Hf. simpl. by rewrite IH.
Qed.

(** X21. When every frame of the walk resolves, and the names hold no line
    break, a stack of [d] callers gives [d + 1] frames in the trace, the
    builder's own included, and never more than 101. *)
Theorem stackTrace_frame_count (P : Program) (stack : list uintptr) :
  cleanSymbols P →
  Forall (λ pc, is_Some (FuncForPC P pc)) (pc_createMessage P :: stack) →
  length (frameLines (stackTrace P stack))
  = min (MAX_DEPTH + 1) (S (length stack)).
Proof.
  intros Hclean Hall. rewrite stackTrace_resolved.
  rewrite (frameLines_renderFrames P Hclean)
    by apply resolved_FuncForPC.
  rewrite length_fmap, length_seq, length_resolved_all.
  - by rewrite length_take.
  - by apply Forall_take.
Qed.

Lemma stackTrace_frame_count_witness :
  length (frameLines (stackTrace Sample.program Sample.deepStack)) = 101%nat
  ∧ length (frameLines (stackTrace Sample.program Sample.stack)) = 3%nat.
Proof.
  split.
  - rewrite (stackTrace_frame_count Sample.program Sample.deepStack
               Sample_program_clean); [reflexivity|].
    unfold Sample.deepStack.
    apply Forall_cons; split; [eexists; reflexivity|].
    apply Forall_cons; split; [eexists; reflexivity|].
    apply Forall_replicate. eexists; reflexivity.
  - rewrite (stackTrace_frame_count Sample.program Sample.stack
               Sample_program_clean); [reflexivity|].
    repeat constructor; by eexists.
Defined.
